(** * Circuit breaker (package [breaker]): shallow embedding and properties

    The Go package keeps one [Breaker] struct that is mutated by its
    methods, spawns one goroutine per Open episode (the transition timer)
    and fans events out to subscriber channels.  The embedding passes the
    runtime explicitly as a [World]: the breaker struct itself, the timer
    goroutines that have been started and have not fired yet, the trace
    of channel sends performed by [SendEvent], a logical clock in
    nanoseconds, and a count of how often a wrapped operation has been
    invoked.  Every method is first given as a function on the [World]:
    the method run from its first to its last statement with no other
    goroutine in between.  [Failure] and the timer goroutine, whose
    statements can interleave, are given a second time statement by
    statement, with a scheduler that interleaves them. *)

From Stdlib Require Import ZArith NArith String List Lia DecimalString.
From stdpp Require Import base numbers list.

Local Open Scope Z_scope.

(** ** Machine integers *)

Module U32.

(** [uint32] values are integers in [0, 2^32); [atomic.AddUint32]
    wraps around. *)
Definition modulus : Z := Eval cbv in 2 ^ 32.
Definition max : Z := modulus - 1.

Definition in_range (x : Z) : Prop := 0 <= x < modulus.

Definition add (x delta : Z) : Z := (x + delta) mod modulus.

End U32.

(** ** Data model (lines 10-55 of the package) *)

Definition State := Z.
Definition StateService := Z.

Definition STATE_CLOSE : State := 1.
Definition STATE_HALF_OPEN : State := 2.
Definition STATE_OPEN : State := 3.
Definition SERVICE_AVAILABLE : StateService := 1.
Definition SERVICE_UNAVAILABLE : StateService := 0.

(** A Go [error] built by [errors.New]: the value is its message. *)
Inductive error : Type := errors_New (msg : string).

(** [ResponseCommand]; [Data] is an [interface{}], here any type [A];
    [None] is [nil] in both fields. *)
Record ResponseCommand (A : Type) : Type := mkResponse {
  Data : option A;
  Error : option error
}.
Arguments mkResponse {A} _ _.
Arguments Data {A} _.
Arguments Error {A} _.

Record CounterResult : Type := mkCounter {
  TotalRequests : Z;
  TotalSucceses : Z;
  TotalFailures : Z;
  TotalRejects : Z
}.

Record BreakerEvent : Type := mkEvent {
  Code : StateService;
  Message : string
}.

(** [time.Duration] is a signed count of nanoseconds. *)
Definition Duration := Z.
Definition Second : Duration := 1000000000.

Record OptionsConfig : Type := mkOptions {
  Attempts : Z;
  TimeoutState : Duration;
  LimitFailure : Z;
  MaxRequests : Z;
  NameService : string
}.

(** A subscriber's inbound channel ([evenReader]) is named by a number. *)
Definition chan := nat.

Record Breaker : Type := mkBreaker {
  options : OptionsConfig;
  counter : CounterResult;
  events : list chan;
  state : State;
  consecFailures : Z
}.

(** The runtime around the breaker. [timers] holds, for every goroutine
    started by [StartTimerChangeState] that has not fired yet, the instant
    at which its timer expires; [sent] lists the sends [reader <- event]
    in program order. *)
Record World : Type := mkWorld {
  cb : Breaker;
  timers : list Z;
  sent : list (chan * BreakerEvent);
  now : Z;
  invoked : N
}.

(** Field updates. *)
Definition set_counter (f : CounterResult -> CounterResult) (w : World) : World :=
  let '(mkWorld (mkBreaker o c e s n) ts sn nw iv) := w in
  mkWorld (mkBreaker o (f c) e s n) ts sn nw iv.

Definition set_consecFailures (f : Z -> Z) (w : World) : World :=
  let '(mkWorld (mkBreaker o c e s n) ts sn nw iv) := w in
  mkWorld (mkBreaker o c e s (f n)) ts sn nw iv.

Definition set_events (f : list chan -> list chan) (w : World) : World :=
  let '(mkWorld (mkBreaker o c e s n) ts sn nw iv) := w in
  mkWorld (mkBreaker o c (f e) s n) ts sn nw iv.

Definition set_timers (f : list Z -> list Z) (w : World) : World :=
  let '(mkWorld b ts sn nw iv) := w in mkWorld b (f ts) sn nw iv.

Definition set_sent (f : list (chan * BreakerEvent) -> list (chan * BreakerEvent))
    (w : World) : World :=
  let '(mkWorld b ts sn nw iv) := w in mkWorld b ts (f sn) nw iv.

Definition set_now (f : Z -> Z) (w : World) : World :=
  let '(mkWorld b ts sn nw iv) := w in mkWorld b ts sn (f nw) iv.

Definition set_invoked (f : N -> N) (w : World) : World :=
  let '(mkWorld b ts sn nw iv) := w in mkWorld b ts sn nw (f iv).

Definition add_TotalRequests (c : CounterResult) : CounterResult :=
  mkCounter (U32.add (TotalRequests c) 1) (TotalSucceses c) (TotalFailures c) (TotalRejects c).
Definition add_TotalSucceses (c : CounterResult) : CounterResult :=
  mkCounter (TotalRequests c) (U32.add (TotalSucceses c) 1) (TotalFailures c) (TotalRejects c).
Definition add_TotalFailures (c : CounterResult) : CounterResult :=
  mkCounter (TotalRequests c) (TotalSucceses c) (U32.add (TotalFailures c) 1) (TotalRejects c).
Definition add_TotalRejects (c : CounterResult) : CounterResult :=
  mkCounter (TotalRequests c) (TotalSucceses c) (TotalFailures c) (U32.add (TotalRejects c) 1).

(** ** Errors (lines 57-67) *)

Definition ErrorToManyRequest : error := errors_New "To many requests".
Definition ErrorTimeoutExecute : error := errors_New "Execute is expired".
Definition ErrorServiceUnavailable : error := errors_New "Service is unavailable".

(** ** Construction (lines 70-97) *)

(** [strconv.Itoa]. *)
Definition Itoa (n : Z) : string := NilEmpty.string_of_int (Z.to_int n).

(** [options == nil] is [None]; [unixnano] is what [time.Now().UnixNano()]
    returns at the call. *)
Definition NewBreaker (options : option OptionsConfig) (unixnano : Z) : Breaker :=
  let options :=
    match options with
    | None => mkOptions 0 0 0 0 ""
    | Some o => o
    end in
  let attempts := if Attempts options =? 0 then 3 else Attempts options in
  let timeoutState :=
    if TimeoutState options =? 0 then 4 * Second else TimeoutState options in
  let limitFailure := if LimitFailure options =? 0 then 5 else LimitFailure options in
  let maxRequests :=
    if MaxRequests options =? 0 then 10000000 else MaxRequests options in
  let nameService :=
    if String.eqb (NameService options) "" then Itoa unixnano
    else NameService options in
  mkBreaker (mkOptions attempts timeoutState limitFailure maxRequests nameService)
            (mkCounter 0 0 0 0) [] STATE_CLOSE 0.

(** The runtime right after construction at instant [unixnano]. *)
Definition boot (options : option OptionsConfig) (unixnano : Z) : World :=
  mkWorld (NewBreaker options unixnano) [] [] unixnano 0%N.

(** ** Event bus (lines 100-126) *)

(** [SendEvent] run without another goroutine sending in between: one
    send per registered reader, in registration order.  The single sends
    are [send] and [sends] below. *)
Definition SendEvent (event : BreakerEvent) (w : World) : World :=
  set_sent (fun s => s ++ map (fun reader => (reader, event)) (events (cb w))) w.

(** [Subcriber]: a fresh inbound channel is appended to [cb.events]. *)
Definition Subcriber (w : World) : World * chan :=
  let evenReader := length (events (cb w)) in
  (set_events (fun e => e ++ [evenReader]) w, evenReader).

(** One round of the relay goroutine: [outputChannel] holds at most 100
    events; when it is full the oldest one is dropped. *)
Definition relay (outputChannel : list BreakerEvent) (event : BreakerEvent)
    : list BreakerEvent :=
  if (length outputChannel <? 100)%nat then outputChannel ++ [event]
  else tail outputChannel ++ [event].

(** ** State access (lines 128-158) *)

Definition SetState (newState : State) (w : World) : World :=
  let '(mkWorld (mkBreaker o c e _ n) ts sn nw iv) := w in
  mkWorld (mkBreaker o c e newState n) ts sn nw iv.

Definition GetState (w : World) : State := state (cb w).
Definition IsOpen (w : World) : bool := GetState w =? STATE_OPEN.
Definition IsClose (w : World) : bool := GetState w =? STATE_CLOSE.
Definition IsHalfOpen (w : World) : bool := GetState w =? STATE_HALF_OPEN.

(** ** Accounting (lines 161-204) *)

Definition Reject (w : World) : World := set_counter add_TotalRejects w.

Definition Success (w : World) : World :=
  let w := set_counter add_TotalSucceses w in
  if IsHalfOpen w then
    set_consecFailures (fun _ => 0) (SetState STATE_CLOSE w)
  else w.

Definition unavailable (w : World) : BreakerEvent :=
  mkEvent SERVICE_UNAVAILABLE
          ("Service " ++ NameService (options (cb w)) ++ " is unavailable")%string.

Definition available (w : World) : BreakerEvent :=
  mkEvent SERVICE_AVAILABLE
          ("Service " ++ NameService (options (cb w)) ++ " is available")%string.

(** [StartTimerChangeState] (lines 207-221), first half: the goroutine
    is started and waits on a timer of length [TimeoutState]. *)
Definition StartTimerChangeState (w : World) : World :=
  set_timers (fun ts => ts ++ [now w + TimeoutState (options (cb w))]) w.

(** [Failure] run from its first to its last statement with no other
    goroutine in between; [Failure_proc] below is the same code statement
    by statement, for the calls that the timer overtakes. *)
Definition Failure (w : World) : World :=
  let w := set_counter add_TotalFailures w in
  let w :=
    if IsClose w then
      let w := set_consecFailures (fun c => U32.add c 1) w in
      let consecFailures := consecFailures (cb w) in
      if consecFailures >? LimitFailure (options (cb w)) then
        let w := SetState STATE_OPEN w in
        let w := StartTimerChangeState w in
        SendEvent (unavailable w) w
      else w
    else w in
  if IsHalfOpen w then
    let w := SetState STATE_OPEN w in
    let w := StartTimerChangeState w in
    SendEvent (unavailable w) w
  else w.

(** ** Transition scheduler (lines 207-221), second half *)

(** What the goroutine does once its timer has expired, when nothing
    else runs before it has finished; [timer_proc] below is the same
    code statement by statement. *)
Definition timer_body (w : World) : World :=
  if GetState w =? STATE_OPEN then
    let w := SetState STATE_HALF_OPEN w in
    SendEvent (available w) w
  else w.

(** The [i]-th pending goroutine resumes: possible only once its timer
    has expired; the goroutine then ends. *)
Definition fire (i : nat) (w : World) : option World :=
  match timers w !! i with
  | Some deadline =>
      if deadline <=? now w then Some (timer_body (set_timers (delete i) w))
      else None
  | None => None
  end.

(** Time passes. *)
Definition tick (d : Z) (w : World) : World := set_now (fun t => t + Z.max 0 d) w.

(** ** Executor (lines 224-266) *)

(** A wrapped operation as the breaker sees it: how long it runs before
    it returns ([None]: it never returns) and the response it returns.
    The operation is an external collaborator: it does not touch the
    breaker. *)
Record HandleFunc (A : Type) : Type := mkHandle {
  latency : option Duration;
  returns : ResponseCommand A
}.
Arguments mkHandle {A} _ _.
Arguments latency {A} _.
Arguments returns {A} _.

Inductive SelectCase : Type :=
| CaseResponse (elapsed : Duration)
| CaseTimer (elapsed : Duration).

(** The [select] of lines 249-256 between the channel [c] fed by the
    operation and [time.NewTimer(timeout).C].  The case that is ready
    first is taken; a timer of non-positive length is ready at once; when
    both become ready at the same instant Go chooses at random, which is
    the argument [pick]. *)
Definition select_case (l : option Duration) (timeout : Duration) (pick : bool)
    : SelectCase :=
  let expiry := Z.max 0 timeout in
  match l with
  | None => CaseTimer expiry
  | Some d =>
      if d <? expiry then CaseResponse d
      else if expiry <? d then CaseTimer expiry
      else if pick then CaseResponse d else CaseTimer expiry
  end.

(** [Execute]. The second component is [None] when the call never
    returns. *)
Definition Execute {A : Type} (handle : HandleFunc A) (timeout : Duration)
    (pick : bool) (w : World) : World * option (ResponseCommand A) :=
  let w := set_counter add_TotalRequests w in
  if IsOpen w then
    let w := Reject w in
    (w, Some (mkResponse None (Some ErrorServiceUnavailable)))
  else
    (* from here on [handle] is called, directly or in a goroutine *)
    let w := set_invoked N.succ w in
    let outcome :=
      if timeout =? 0 then
        match latency handle with
        | Some d => Some (d, returns handle)
        | None => None
        end
      else
        match select_case (latency handle) timeout pick with
        | CaseResponse d => Some (d, returns handle)
        | CaseTimer d => Some (d, mkResponse None (Some ErrorTimeoutExecute))
        end in
    match outcome with
    | None => (w, None)
    | Some (elapsed, response) =>
        let w := tick elapsed w in
        match Error response with
        | Some _ => (Failure w, Some response)
        | None => (Success w, Some response)
        end
    end.

(** ** Runs: sequences of calls and timer firings *)

Inductive Call (A : Type) : Type :=
| CallExecute (handle : HandleFunc A) (timeout : Duration) (pick : bool)
| CallSuccess
| CallFailure
| CallReject
| CallSetState (newState : State)
| CallSubcriber
| TimerFires (i : nat)
| TimePasses (d : Duration).
Arguments CallExecute {A} _ _ _.
Arguments CallSuccess {A}.
Arguments CallFailure {A}.
Arguments CallReject {A}.
Arguments CallSetState {A} _.
Arguments CallSubcriber {A}.
Arguments TimerFires {A} _.
Arguments TimePasses {A} _.

(** One call carried to its end; [None] when it has no end (an [Execute]
    that never returns) or cannot happen (a timer that has not expired). *)
Definition perform {A : Type} (c : Call A) (w : World) : option World :=
  match c with
  | CallExecute handle timeout pick =>
      match Execute handle timeout pick w with
      | (w', Some _) => Some w'
      | (_, None) => None
      end
  | CallSuccess => Some (Success w)
  | CallFailure => Some (Failure w)
  | CallReject => Some (Reject w)
  | CallSetState s => Some (SetState s w)
  | CallSubcriber => Some (fst (Subcriber w))
  | TimerFires i => fire i w
  | TimePasses d => Some (tick d w)
  end.

Fixpoint run {A : Type} (cs : list (Call A)) (w : World) : option World :=
  match cs with
  | [] => Some w
  | c :: cs =>
      match perform c w with
      | Some w' => run cs w'
      | None => None
      end
  end.

(** [n] calls of [Failure] in a row. *)
Definition failures (n : N) (w : World) : World := N.iter n Failure w.

Definition is_SetState {A : Type} (c : Call A) : bool :=
  match c with
  | CallSetState _ => true
  | _ => false
  end.

Definition is_Execute_or_runtime {A : Type} (c : Call A) : bool :=
  match c with
  | CallExecute _ _ _ | CallSubcriber | TimerFires _ | TimePasses _ => true
  | _ => false
  end.

(** ** Scenario of the specification: limitFailure=2, timeoutState=50ms *)

Module Scenario.

Definition ms : Duration := 1000000.
Definition opts : OptionsConfig := mkOptions 0 (50 * ms) 2 0 "svc".
Definition failing : HandleFunc string :=
  mkHandle (Some ms) (mkResponse None (Some (errors_New "boom"))).
Definition working : HandleFunc string :=
  mkHandle (Some ms) (mkResponse (Some "ok"%string) None).

Definition script : list (Call string) :=
  [ CallSubcriber;
    CallExecute failing 0 false; CallExecute failing 0 false;
    CallExecute failing 0 false;
    CallExecute working 0 false;
    TimePasses (60 * ms); TimerFires 0%nat;
    CallExecute working 0 false ].

End Scenario.

(** ** Vocabulary of the statements *)

(** Everything but the four counters is the same in [w] and [w']. *)
Definition same_but_counter (w w' : World) : Prop :=
  options (cb w') = options (cb w) /\ events (cb w') = events (cb w) /\
  state (cb w') = state (cb w) /\
  consecFailures (cb w') = consecFailures (cb w) /\
  timers w' = timers w /\ sent w' = sent w /\ now w' = now w /\
  invoked w' = invoked w.

(** The sends of one [SendEvent event]: one per registered reader. *)
Definition fan_out (event : BreakerEvent) (w : World) : list (chan * BreakerEvent) :=
  map (fun reader => (reader, event)) (events (cb w)).

(** The zero value [OptionsConfig{}]. *)
Definition zero_options : OptionsConfig := mkOptions 0 0 0 0 "".

(** The invariant of the data model: Open has exactly one pending
    transition. *)
Definition open_has_one_timer (w : World) : Prop :=
  GetState w = STATE_OPEN -> length (timers w) = 1%nat.

(** Number of [Execute] calls in a run. *)
Definition is_Execute {A : Type} (c : Call A) : bool :=
  match c with
  | CallExecute _ _ _ => true
  | _ => false
  end.

Fixpoint executes {A : Type} (cs : list (Call A)) : Z :=
  match cs with
  | [] => 0
  | c :: cs => (if is_Execute c then 1 else 0) + executes cs
  end.

(** What a run from a fresh breaker maintains when nobody calls
    [SetState]: a pending transition exactly while Open. *)
Definition timer_invariant (w : World) : Prop :=
  (GetState w = STATE_OPEN /\ length (timers w) = 1%nat) \/
  ((GetState w = STATE_CLOSE \/ GetState w = STATE_HALF_OPEN) /\ timers w = []).

(** The counters after [n] returned [Execute] calls, of which [s]
    succeeded, [f] failed and [r] were rejected. *)
Definition tallied (n : Z) (c : CounterResult) : Prop :=
  exists s f r : Z,
    0 <= s /\ 0 <= f /\ 0 <= r /\ s + f + r = n /\
    TotalRequests c = n mod U32.modulus /\
    TotalSucceses c = s mod U32.modulus /\
    TotalFailures c = f mod U32.modulus /\
    TotalRejects c = r mod U32.modulus.

(** The events a breaker named [name] can send. *)
Definition breaker_event (name : string) (event : BreakerEvent) : Prop :=
  event = mkEvent SERVICE_UNAVAILABLE ("Service " ++ name ++ " is unavailable")%string \/
  event = mkEvent SERVICE_AVAILABLE ("Service " ++ name ++ " is available")%string.

(** What [n] failures below the threshold leave behind. *)
Definition still_closed (n : N) (w w' : World) : Prop :=
  GetState w' = STATE_CLOSE /\ consecFailures (cb w') = Z.of_N n /\
  options (cb w') = options (cb w) /\ events (cb w') = events (cb w) /\
  sent w' = sent w /\ timers w' = timers w /\ now w' = now w.

(** All events sent so far are events of this breaker. *)
Definition only_breaker_events (w : World) : Prop :=
  Forall (fun p => breaker_event (NameService (options (cb w))) (snd p)) (sent w).

(** [w'] has the options of [w] and at most one more fan-out of an
    availability event. *)
Definition emits_at_most_one (w w' : World) : Prop :=
  options (cb w') = options (cb w) /\
  (sent w' = sent w \/ sent w' = sent w ++ fan_out (unavailable w) w \/
   sent w' = sent w ++ fan_out (available w) w).

(** ** The rest of the package and the vocabulary of further properties *)

(** [toString] (lines 268-279). *)
Definition toString (s : State) : string :=
  if s =? STATE_CLOSE then "close"
  else if s =? STATE_HALF_OPEN then "half_open"
  else if s =? STATE_OPEN then "open"
  else "undefine".

(** The relay goroutine of a subscriber that is not being read, fed with
    [evs] in order, starting from the empty [outputChannel]. *)
Definition relay_all (evs : list BreakerEvent) : list BreakerEvent :=
  fold_left relay evs [].

(** Number of [Subcriber] calls in a run. *)
Fixpoint subscriptions {A : Type} (cs : list (Call A)) : nat :=
  match cs with
  | [] => 0%nat
  | CallSubcriber :: cs => S (subscriptions cs)
  | _ :: cs => subscriptions cs
  end.



Definition is_TimerFires {A : Type} (c : Call A) : bool :=
  match c with
  | TimerFires _ => true
  | _ => false
  end.

(** The codes of the events sent to [reader] so far, oldest first. *)
Definition history (reader : chan) (w : World) : list StateService :=
  map (fun p => Code (snd p))
      (List.filter (fun p => Nat.eqb (fst p) reader) (sent w)).

(** What every run from a fresh breaker maintains about the registry of
    subscribers: readers are numbered in order of registration and only
    registered readers have been sent anything. *)
Definition registry_invariant (w : World) : Prop :=
  events (cb w) = seq 0 (length (events (cb w))) /\
  forall p, In p (sent w) -> (fst p < length (events (cb w)))%nat.

(** What a fresh breaker maintains while it is driven through [Execute]
    alone and no timer has fired: the failure counter and the count of
    consecutive failures agree, and stop at [limitFailure]+1. *)
Definition failure_budget (w : World) : Prop :=
  let L := LimitFailure (options (cb w)) in
  let F := TotalFailures (counter (cb w)) in
  consecFailures (cb w) = F /\
  ((GetState w = STATE_CLOSE /\ 0 <= F <= L) \/
   (GetState w = STATE_OPEN /\ F = L + 1)).

Definition is_Execute_or_idle {A : Type} (c : Call A) : bool :=
  match c with
  | CallExecute _ _ _ | CallSubcriber | TimePasses _ => true
  | _ => false
  end.

(** ** Goroutines, statement by statement *)

(** [Failure], [SendEvent] and [timer_body] above are these functions run
    from their first statement to their last with no other goroutine in
    between.  In the program a call can be overtaken: [SendEvent] blocks
    on every send, the timer goroutine started two lines earlier runs
    meanwhile, and [Failure] reads the state again afterwards.  What
    follows is the same code statement by statement, and a scheduler
    that interleaves one call with the timer goroutines. *)

(** What a goroutine still has to do: nothing, or one more atomic
    statement, with its effect on the runtime and what is left to do
    after it, which may depend on what the statement read. *)
Inductive Proc : Type :=
| Done
| Stmt (effect : World -> World) (rest : World -> Proc).

(** [reader <- event]: one send on the reader's unbuffered channel. *)
Definition send (reader : chan) (event : BreakerEvent) (w : World) : World :=
  set_sent (fun s => s ++ [(reader, event)]) w.

(** The loop of [SendEvent] (lines 102-104) over the readers it found at
    its head, one send per statement. *)
Fixpoint sends (event : BreakerEvent) (readers : list chan) (rest : Proc) : Proc :=
  match readers with
  | [] => rest
  | reader :: readers =>
      Stmt (send reader event) (fun _ => sends event readers rest)
  end.

(** Lines 186-191 and 197-202: [SetState(STATE_OPEN)],
    [StartTimerChangeState()], then the event is built and [SendEvent]
    reads [cb.events] and sends. *)
Definition open_proc (rest : Proc) : Proc :=
  Stmt (SetState STATE_OPEN) (fun _ =>
  Stmt StartTimerChangeState (fun _ =>
  Stmt id (fun w => sends (unavailable w) (events (cb w)) rest))).

(** Lines 194-203: the state is read again, whatever happened above. *)
Definition Failure_half_open_check : Proc :=
  Stmt id (fun w => if IsHalfOpen w then open_proc Done else Done).

(** [Failure] (lines 177-204). *)
Definition Failure_proc : Proc :=
  Stmt (set_counter add_TotalFailures) (fun _ =>
  Stmt id (fun w =>
    if IsClose w then
      Stmt (set_consecFailures (fun c => U32.add c 1)) (fun _ =>
      Stmt id (fun w =>
        let consecFailures := consecFailures (cb w) in
        if consecFailures >? LimitFailure (options (cb w))
        then open_proc Failure_half_open_check
        else Failure_half_open_check))
    else Failure_half_open_check)).

(** The goroutine of [StartTimerChangeState] once its timer has expired
    (lines 212-219). *)
Definition timer_proc : Proc :=
  Stmt id (fun w =>
    if GetState w =? STATE_OPEN then
      Stmt (SetState STATE_HALF_OPEN) (fun _ =>
      Stmt id (fun w => sends (available w) (events (cb w)) Done))
    else Done).

(** A goroutine run to its end with nothing in between. *)
Fixpoint alone (p : Proc) (w : World) : World :=
  match p with
  | Done => w
  | Stmt effect rest => alone (rest w) (effect w)
  end.

(** One call in progress, and the timer goroutines that have woken up
    and are not finished. *)
Record Machine : Type := mkMachine {
  world : World;
  caller : Proc;
  goroutines : list Proc
}.

(** The moves of the scheduler: the caller executes its next statement;
    the [i]-th pending timer expires and its goroutine starts; the
    [j]-th running goroutine executes its next statement; time passes. *)
Inductive Move : Type :=
| MoveCaller
| MoveWake (i : nat)
| MoveGoroutine (j : nat)
| MoveTick (d : Duration).

(** [None] when the move is not possible. *)
Definition move (mv : Move) (m : Machine) : option Machine :=
  match mv with
  | MoveCaller =>
      match caller m with
      | Stmt effect rest =>
          Some (mkMachine (effect (world m)) (rest (world m)) (goroutines m))
      | Done => None
      end
  | MoveWake i =>
      match timers (world m) !! i with
      | Some deadline =>
          if deadline <=? now (world m) then
            Some (mkMachine (set_timers (delete i) (world m)) (caller m)
                            (goroutines m ++ [timer_proc]))
          else None
      | None => None
      end
  | MoveGoroutine j =>
      match goroutines m !! j with
      | Some (Stmt effect rest) =>
          Some (mkMachine (effect (world m)) (caller m)
                          (<[j := rest (world m)]> (goroutines m)))
      | _ => None
      end
  | MoveTick d => Some (mkMachine (tick d (world m)) (caller m) (goroutines m))
  end.

Fixpoint play (sched : list Move) (m : Machine) : option Machine :=
  match sched with
  | [] => Some m
  | mv :: sched =>
      match move mv m with
      | Some m' => play sched m'
      | None => None
      end
  end.

Definition is_MoveWake (mv : Move) : bool :=
  match mv with
  | MoveWake _ => true
  | _ => false
  end.

(** [wc] is [wa] later in time: the same breaker, events and
    invocations; the timers pending at the start of the call, [old], and
    after them the timers started since, each of them due later in [wc]
    than in [wa] by no more than the time by which [wc] is ahead. *)
Definition ahead (old : list Z) (wc wa : World) : Prop :=
  cb wc = cb wa /\ sent wc = sent wa /\ invoked wc = invoked wa /\
  now wa <= now wc /\
  exists nc na,
    timers wc = old ++ nc /\ timers wa = old ++ na /\
    Forall2 (fun dc da => da <= dc <= da + (now wc - now wa)) nc na.

(** Goroutines whose statements do not depend on the clock other than
    through the deadlines of the timers they start. *)
Inductive timeless (old : list Z) : Proc -> Prop :=
| timeless_Done : timeless old Done
| timeless_Stmt (effect : World -> World) (rest : World -> Proc) :
    (forall wc wa, ahead old wc wa -> ahead old (effect wc) (effect wa)) ->
    (forall wc wa, ahead old wc wa -> rest wc = rest wa) ->
    (forall w, timeless old (rest w)) ->
    timeless old (Stmt effect rest).

(** The two races of [Failure] with its own timer, replayed:
    [timeoutState] is 1 ns and [limitFailure] is 1. *)
Module Race.

Definition opts : OptionsConfig := mkOptions 0 1 1 0 "svc".

(** One subscriber, one failure made, the second one in progress. *)
Definition start1 : Machine :=
  mkMachine (failures 1 (fst (Subcriber (boot (Some opts) 0)))) Failure_proc [].

(** The call opens the breaker, starts its timer and sends Unavailable;
    the timer expires, its goroutine sets HalfOpen and sends Available;
    the call reads the state again, finds HalfOpen and opens once more. *)
Definition overtaken : list Move :=
  [MoveCaller; MoveCaller; MoveCaller; MoveCaller; MoveCaller; MoveCaller;
   MoveCaller; MoveCaller;
   MoveTick 1; MoveWake 0;
   MoveGoroutine 0; MoveGoroutine 0; MoveGoroutine 0; MoveGoroutine 0;
   MoveCaller; MoveCaller; MoveCaller; MoveCaller; MoveCaller].

(** Two subscribers. *)
Definition start2 : Machine :=
  mkMachine
    (failures 1 (fst (Subcriber (fst (Subcriber (boot (Some opts) 0))))))
    Failure_proc [].

(** As above, but the timer goroutine overtakes the call between its two
    sends: the second reader is sent Available before Unavailable. *)
Definition overtaken_between_sends : list Move :=
  [MoveCaller; MoveCaller; MoveCaller; MoveCaller; MoveCaller; MoveCaller;
   MoveCaller; MoveCaller;
   MoveTick 1; MoveWake 0;
   MoveGoroutine 0; MoveGoroutine 0; MoveGoroutine 0; MoveGoroutine 0;
   MoveGoroutine 0;
   MoveCaller;
   MoveCaller; MoveCaller; MoveCaller; MoveCaller; MoveCaller; MoveCaller].

End Race.

(** * Properties *)

Module U32Facts.
Import U32.

Lemma add_in_range x d : in_range (add x d).
Proof. unfold in_range, add, modulus. apply Z.mod_pos_bound. lia. Qed.

Lemma add_small x d : 0 <= x + d < modulus -> add x d = x + d.
Proof. intros H. unfold add. apply Z.mod_small. exact H. Qed.

Lemma add_wrap : add max 1 = 0.
Proof. reflexivity. Qed.

Lemma add_1_neq x : in_range x -> add x 1 <> x.
Proof.
  unfold in_range, modulus. intros Hx.
  destruct (Z.eq_dec x max) as [->|Hne].
  - rewrite add_wrap. unfold max, modulus. lia.
  - rewrite add_small; unfold max, modulus in *; lia.
Qed.

End U32Facts.

#[global] Arguments U32.add : simpl never.

(** Unfolds the methods down to record constructors. *)
Ltac unfold_methods :=
  unfold Success, Failure, Reject, timer_body, StartTimerChangeState, SendEvent,
    SetState, IsOpen, IsClose, IsHalfOpen, GetState, unavailable, available,
    fan_out, tick,
    set_counter, set_consecFailures, set_events, set_timers, set_sent, set_now,
    set_invoked in *.

Ltac open_world w :=
  destruct w as [[?o ?c ?e ?s ?cf] ?ts ?sn ?nw ?iv]; unfold_methods; simpl in *.

(** ** Frame of the accounting methods *)

Lemma set_counter_frame f w :
  same_but_counter w (set_counter f w) /\
  counter (cb (set_counter f w)) = f (counter (cb w)).
Proof. destruct w as [[o c e s n] ts sn nw iv]. repeat split. Qed.

Lemma Success_not_half_open w :
  GetState w <> STATE_HALF_OPEN -> Success w = set_counter add_TotalSucceses w.
Proof.
  intros H. open_world w.
  destruct (Z.eqb_spec s STATE_HALF_OPEN); [contradiction | reflexivity].
Qed.

Lemma Failure_open w :
  GetState w = STATE_OPEN -> Failure w = set_counter add_TotalFailures w.
Proof. intros H. open_world w. subst. reflexivity. Qed.

Lemma Failure_half_open w :
  GetState w = STATE_HALF_OPEN ->
  Failure w =
    (let w1 := StartTimerChangeState (SetState STATE_OPEN (set_counter add_TotalFailures w)) in
     SendEvent (unavailable w1) w1).
Proof. intros H. open_world w. subst. reflexivity. Qed.

(** One [Failure] while Closed, below and above the threshold. *)
Lemma Failure_closed_below w :
  GetState w = STATE_CLOSE ->
  U32.add (consecFailures (cb w)) 1 <= LimitFailure (options (cb w)) ->
  Failure w =
    set_consecFailures (fun c => U32.add c 1) (set_counter add_TotalFailures w).
Proof.
  intros H Hle. open_world w. subst. simpl.
  destruct (Z.gtb_spec (U32.add cf 1) (LimitFailure o)); [lia | reflexivity].
Qed.

Lemma Failure_closed_above w :
  GetState w = STATE_CLOSE ->
  LimitFailure (options (cb w)) < U32.add (consecFailures (cb w)) 1 ->
  Failure w =
    (let w1 := set_consecFailures (fun c => U32.add c 1) (set_counter add_TotalFailures w) in
     let w2 := StartTimerChangeState (SetState STATE_OPEN w1) in
     SendEvent (unavailable w2) w2).
Proof.
  intros H Hlt. open_world w. subst. simpl.
  destruct (Z.gtb_spec (U32.add cf 1) (LimitFailure o)); [reflexivity | lia].
Qed.

(** C10: [Success] while Closed or Open only adds one to the success
    counter; [Failure] while Open only adds one to the failure counter;
    [Reject] only adds one to the reject counter, in every state.  State,
    consecutive-failure count, the other counters, timers and events are
    left as they were. *)
Theorem C10_accounting_frame (w : World) :
  (GetState w = STATE_CLOSE \/ GetState w = STATE_OPEN ->
     same_but_counter w (Success w) /\
     counter (cb (Success w)) =
       mkCounter (TotalRequests (counter (cb w)))
                 (U32.add (TotalSucceses (counter (cb w))) 1)
                 (TotalFailures (counter (cb w)))
                 (TotalRejects (counter (cb w)))) /\
  (GetState w = STATE_OPEN ->
     same_but_counter w (Failure w) /\
     counter (cb (Failure w)) =
       mkCounter (TotalRequests (counter (cb w)))
                 (TotalSucceses (counter (cb w)))
                 (U32.add (TotalFailures (counter (cb w))) 1)
                 (TotalRejects (counter (cb w)))) /\
  (same_but_counter w (Reject w) /\
   counter (cb (Reject w)) =
     mkCounter (TotalRequests (counter (cb w)))
               (TotalSucceses (counter (cb w)))
               (TotalFailures (counter (cb w)))
               (U32.add (TotalRejects (counter (cb w))) 1)).
Proof.
  split; [| split].
  - intros H. rewrite Success_not_half_open.
    + apply set_counter_frame.
    + destruct H as [H | H]; rewrite H; discriminate.
  - intros H. rewrite (Failure_open _ H). apply set_counter_frame.
  - apply set_counter_frame.
Qed.

Lemma C10_accounting_frame_witness :
  let w := SetState STATE_OPEN (boot None 0) in
  GetState w = STATE_OPEN /\
  TotalSucceses (counter (cb (Success w))) = 1 /\
  TotalFailures (counter (cb (Failure w))) = 1 /\
  state (cb (Success w)) = STATE_OPEN /\ state (cb (Failure w)) = STATE_OPEN.
Proof.
  intros w.
  destruct (C10_accounting_frame w) as [HS [HF _]].
  destruct (HS (or_intror eq_refl)) as [[_ [_ [Hs _]]] Hc].
  destruct (HF eq_refl) as [[_ [_ [Hs' _]]] Hc'].
  split; [reflexivity |].
  rewrite Hc, Hc', Hs, Hs'. repeat split; reflexivity.
Defined.

(** C3: in HalfOpen one [Success] closes the breaker and clears the
    consecutive-failure count; one [Failure] opens it whatever the count
    and the threshold are, sends one Unavailable event to every registered
    reader and starts one more transition timer of length [TimeoutState]. *)
Theorem C3_half_open_probe (w : World) :
  GetState w = STATE_HALF_OPEN ->
  (GetState (Success w) = STATE_CLOSE /\ consecFailures (cb (Success w)) = 0) /\
  (GetState (Failure w) = STATE_OPEN /\
   sent (Failure w) = sent w ++ fan_out (unavailable w) w /\
   Code (unavailable w) = SERVICE_UNAVAILABLE /\
   timers (Failure w) = timers w ++ [now w + TimeoutState (options (cb w))]).
Proof.
  intros H. split.
  - open_world w. subst. repeat split.
  - rewrite (Failure_half_open _ H). open_world w. repeat split.
Qed.

Lemma C3_half_open_probe_witness :
  let w := set_consecFailures (fun _ => 1) (SetState STATE_HALF_OPEN (boot None 0)) in
  GetState w = STATE_HALF_OPEN /\
  GetState (Success w) = STATE_CLOSE /\ consecFailures (cb (Success w)) = 0 /\
  GetState (Failure w) = STATE_OPEN /\ length (timers (Failure w)) = 1%nat.
Proof.
  intros w.
  destruct (C3_half_open_probe w eq_refl) as [[H1 H2] [H3 [_ [_ H4]]]].
  split; [reflexivity |].
  rewrite H1, H2, H3, H4. repeat split; reflexivity.
Defined.

(** ** Construction *)

(** C7: [NewBreaker] replaces every zero or empty option, also those of a
    nil pointer, by its default (3 attempts, 4 s, 5 failures, 10,000,000
    requests, the decimal form of the current time as name), keeps every
    other option as given, and returns a Closed breaker whose four
    counters and consecutive-failure count are 0. *)
Theorem C7_NewBreaker_defaults (given : option OptionsConfig) (unixnano : Z) :
  let o := match given with Some o => o | None => zero_options end in
  let b := NewBreaker given unixnano in
  ((Attempts o = 0 -> Attempts (options b) = 3) /\
   (Attempts o <> 0 -> Attempts (options b) = Attempts o)) /\
  ((TimeoutState o = 0 -> TimeoutState (options b) = 4 * Second) /\
   (TimeoutState o <> 0 -> TimeoutState (options b) = TimeoutState o)) /\
  ((LimitFailure o = 0 -> LimitFailure (options b) = 5) /\
   (LimitFailure o <> 0 -> LimitFailure (options b) = LimitFailure o)) /\
  ((MaxRequests o = 0 -> MaxRequests (options b) = 10000000) /\
   (MaxRequests o <> 0 -> MaxRequests (options b) = MaxRequests o)) /\
  ((NameService o = ""%string -> NameService (options b) = Itoa unixnano) /\
   (NameService o <> ""%string -> NameService (options b) = NameService o)) /\
  state b = STATE_CLOSE /\
  counter b = mkCounter 0 0 0 0 /\
  consecFailures b = 0.
Proof.
  intros o b.
  assert (Hb : b = NewBreaker (Some o) unixnano) by (subst o b; destruct given; reflexivity).
  rewrite Hb. clear Hb b. unfold NewBreaker. simpl.
  repeat match goal with
  | |- context [?x =? 0] => destruct (Z.eqb_spec x 0)
  | |- context [String.eqb ?x ?y] => destruct (String.eqb_spec x y)
  end; repeat split; intros; congruence.
Qed.

Lemma C7_NewBreaker_defaults_witness :
  options (NewBreaker None 42) = mkOptions 3 (4 * Second) 5 10000000 "42" /\
  options (NewBreaker (Some (mkOptions 7 0 9 0 "svc")) 42) =
    mkOptions 7 (4 * Second) 9 10000000 "svc".
Proof.
  split.
  - destruct (C7_NewBreaker_defaults None 42)
      as [[A _] [[T _] [[L _] [[M _] [[N _] _]]]]].
    specialize (A eq_refl). specialize (T eq_refl). specialize (L eq_refl).
    specialize (M eq_refl). specialize (N eq_refl).
    destruct (options (NewBreaker None 42)); simpl in *. subst. reflexivity.
  - destruct (C7_NewBreaker_defaults (Some (mkOptions 7 0 9 0 "svc")) 42)
      as [[_ A] [[T _] [[_ L] [[M _] [[_ N] _]]]]].
    specialize (A ltac:(discriminate)). specialize (T eq_refl).
    specialize (L ltac:(discriminate)). specialize (M eq_refl).
    specialize (N ltac:(discriminate)).
    destruct (options (NewBreaker (Some (mkOptions 7 0 9 0 "svc")) 42)); simpl in *.
    subst. reflexivity.
Defined.

(** ** Rejection while Open *)

Lemma Execute_open {A : Type} (handle : HandleFunc A) timeout pick w :
  GetState w = STATE_OPEN ->
  Execute handle timeout pick w =
    (Reject (set_counter add_TotalRequests w),
     Some (mkResponse None (Some ErrorServiceUnavailable))).
Proof. intros H. unfold Execute. open_world w. subst. reflexivity. Qed.

(** C2: while Open, [Execute] returns the ServiceUnavailable error with
    nil data for every operation and timeout, adds one to the reject
    counter, does not invoke the operation, and leaves the state, the
    consecutive-failure count and the success and failure counters as
    they were. *)
Theorem C2_open_rejects {A : Type} (handle : HandleFunc A) (timeout : Duration)
    (pick : bool) (w : World) :
  GetState w = STATE_OPEN ->
  let w' := fst (Execute handle timeout pick w) in
  snd (Execute handle timeout pick w) =
    Some (mkResponse None (Some ErrorServiceUnavailable)) /\
  TotalRejects (counter (cb w')) = U32.add (TotalRejects (counter (cb w))) 1 /\
  invoked w' = invoked w /\
  state (cb w') = state (cb w) /\
  consecFailures (cb w') = consecFailures (cb w) /\
  TotalSucceses (counter (cb w')) = TotalSucceses (counter (cb w)) /\
  TotalFailures (counter (cb w')) = TotalFailures (counter (cb w)) /\
  timers w' = timers w /\ sent w' = sent w.
Proof.
  intros H w'. subst w'. rewrite (Execute_open _ _ _ _ H).
  destruct w as [[o c e s n] ts sn nw iv]. repeat split.
Qed.

Lemma C2_open_rejects_witness :
  let w := SetState STATE_OPEN (boot None 0) in
  let h := mkHandle (Some 5) (mkResponse (Some 1%nat) None) in
  GetState w = STATE_OPEN /\
  snd (Execute h 0 false w) = Some (mkResponse None (Some ErrorServiceUnavailable)) /\
  TotalRejects (counter (cb (fst (Execute h 0 false w)))) = 1.
Proof.
  intros w h.
  destruct (C2_open_rejects h 0 false w eq_refl) as [H1 [H2 _]].
  split; [reflexivity | split; [exact H1 | rewrite H2; reflexivity]].
Defined.

(** ** Transition scheduler *)

(** C5: entering Open starts one action, due [TimeoutState] after the
    start; it cannot run before that instant and can run from then on;
    running it ends it (it is no longer pending).  When it runs it looks
    at the state: if that is Open the state becomes HalfOpen and every
    registered reader is sent one Available event; otherwise neither the
    breaker nor the trace of events changes. *)
Theorem C5_transition_timer (w : World) :
  timers (StartTimerChangeState w) =
    timers w ++ [now w + TimeoutState (options (cb w))] /\
  forall (i : nat) (deadline : Z),
    timers w !! i = Some deadline ->
    (now w < deadline -> fire i w = None) /\
    (deadline <= now w ->
     exists w', fire i w = Some w' /\
       timers w' = delete i (timers w) /\
       S (length (timers w')) = length (timers w) /\
       (GetState w = STATE_OPEN ->
          GetState w' = STATE_HALF_OPEN /\
          sent w' = sent w ++ fan_out (available w) w /\
          Code (available w) = SERVICE_AVAILABLE) /\
       (GetState w <> STATE_OPEN -> cb w' = cb w /\ sent w' = sent w)).
Proof.
  split.
  - destruct w as [[o c e s n] ts sn nw iv]. reflexivity.
  - intros i deadline Hi. unfold fire. rewrite Hi. split.
    + intros Hlt. destruct (Z.leb_spec deadline (now w)); [lia | reflexivity].
    + intros Hle. destruct (Z.leb_spec deadline (now w)); [| lia].
      eexists. split; [reflexivity |].
      assert (Hlen : S (length (delete i (timers w))) = length (timers w)).
      { rewrite length_delete by eauto.
        apply lookup_lt_Some in Hi. lia. }
      open_world w.
      destruct (Z.eqb_spec s STATE_OPEN) as [-> | Hs]; simpl;
        repeat split; try assumption; try congruence.
Qed.

Lemma C5_transition_timer_witness :
  let w := tick (4 * Second) (StartTimerChangeState (SetState STATE_OPEN (boot None 0))) in
  timers w !! 0%nat = Some (4 * Second) /\ 4 * Second <= now w /\
  GetState w = STATE_OPEN /\
  exists w', fire 0 w = Some w' /\ GetState w' = STATE_HALF_OPEN /\ timers w' = [].
Proof.
  intros w.
  destruct (C5_transition_timer w) as [_ H].
  destruct (H 0%nat (4 * Second) eq_refl) as [_ H'].
  destruct (H' ltac:(discriminate)) as [w' [Hf [Ht [_ [Ho _]]]]].
  destruct (Ho eq_refl) as [Hs _].
  repeat split; try discriminate.
  exists w'. repeat split; assumption.
Defined.

(** ** What [Success] and [Failure] never touch *)

Ltac case_ifs :=
  repeat match goal with
  | |- context [if ?b then _ else _] => destruct b eqn:?; simpl in *; try discriminate
  end.

Lemma Success_frame w :
  options (cb (Success w)) = options (cb w) /\
  events (cb (Success w)) = events (cb w) /\
  counter (cb (Success w)) = add_TotalSucceses (counter (cb w)) /\
  timers (Success w) = timers w /\ sent (Success w) = sent w /\
  now (Success w) = now w /\ invoked (Success w) = invoked w.
Proof. open_world w. case_ifs; repeat split. Qed.

Lemma Failure_frame w :
  options (cb (Failure w)) = options (cb w) /\
  events (cb (Failure w)) = events (cb w) /\
  counter (cb (Failure w)) = add_TotalFailures (counter (cb w)) /\
  (sent (Failure w) = sent w \/ sent (Failure w) = sent w ++ fan_out (unavailable w) w) /\
  now (Failure w) = now w /\ invoked (Failure w) = invoked w.
Proof. open_world w. case_ifs; repeat split; auto. Qed.

Lemma timer_body_frame w :
  options (cb (timer_body w)) = options (cb w) /\
  events (cb (timer_body w)) = events (cb w) /\
  counter (cb (timer_body w)) = counter (cb w) /\
  (sent (timer_body w) = sent w \/ sent (timer_body w) = sent w ++ fan_out (available w) w) /\
  timers (timer_body w) = timers w.
Proof. open_world w. case_ifs; repeat split; auto. Qed.

(** ** Timeout-bounded execution *)

(** The admitted part of [Execute] (lines 238-266), once the state has
    been found not to be Open. *)
Lemma Execute_admitted {A : Type} (handle : HandleFunc A) timeout pick w :
  GetState w <> STATE_OPEN ->
  Execute handle timeout pick w =
    let w1 := set_invoked N.succ (set_counter add_TotalRequests w) in
    let outcome :=
      if timeout =? 0 then
        match latency handle with
        | Some d => Some (d, returns handle)
        | None => None
        end
      else
        match select_case (latency handle) timeout pick with
        | CaseResponse d => Some (d, returns handle)
        | CaseTimer d => Some (d, mkResponse None (Some ErrorTimeoutExecute))
        end in
    match outcome with
    | None => (w1, None)
    | Some (elapsed, response) =>
        match Error response with
        | Some _ => (Failure (tick elapsed w1), Some response)
        | None => (Success (tick elapsed w1), Some response)
        end
    end.
Proof.
  intros H. unfold Execute.
  replace (IsOpen (set_counter add_TotalRequests w)) with false; [reflexivity |].
  open_world w. symmetry. apply Z.eqb_neq. exact H.
Qed.

Lemma select_case_timer_wins (l : option Duration) timeout pick :
  0 < timeout -> (forall d, l = Some d -> timeout < d) ->
  select_case l timeout pick = CaseTimer timeout.
Proof.
  intros Ht Hl. unfold select_case. rewrite Z.max_r by lia.
  destruct l as [d |]; [| reflexivity].
  specialize (Hl d eq_refl).
  destruct (Z.ltb_spec d timeout); [lia |].
  destruct (Z.ltb_spec timeout d); [reflexivity | lia].
Qed.

Lemma select_case_response_wins d timeout pick :
  d < timeout -> select_case (Some d) timeout pick = CaseResponse d.
Proof.
  intros Hd. unfold select_case.
  destruct (Z.ltb_spec d (Z.max 0 timeout)); [reflexivity | lia].
Qed.

Lemma tick_frame d w :
  cb (tick d w) = cb w /\ timers (tick d w) = timers w /\
  sent (tick d w) = sent w /\ now (tick d w) = now w + Z.max 0 d /\
  invoked (tick d w) = invoked w.
Proof. destruct w. repeat split. Qed.

Lemma admission_frame w :
  let w1 := set_invoked N.succ (set_counter add_TotalRequests w) in
  options (cb w1) = options (cb w) /\ events (cb w1) = events (cb w) /\
  state (cb w1) = state (cb w) /\
  consecFailures (cb w1) = consecFailures (cb w) /\
  counter (cb w1) = add_TotalRequests (counter (cb w)) /\
  timers w1 = timers w /\ sent w1 = sent w /\ now w1 = now w /\
  invoked w1 = N.succ (invoked w).
Proof. destruct w as [[o c e s n] ts sn nw iv]. repeat split. Qed.

(** C4: for a call that is admitted (the state is not Open),
    [Execute(op, 0)] runs the operation in the caller: it returns the
    operation's own response, after exactly the time the operation takes,
    and it never returns when the operation never returns.
    [Execute(op, T)] with [T > 0] lets the operation race a timer of
    length [T]: when the operation has not returned within [T] (it
    returns later, or never), the call returns after [T] with the
    TimeoutExecute error and nil data, whatever the operation would have
    returned, and the call is recorded by [Failure]; when the operation
    returns before [T], its response is returned. *)
Theorem C4_execute_timeout {A : Type} (handle : HandleFunc A) (timeout : Duration)
    (pick : bool) (w : World) :
  GetState w <> STATE_OPEN ->
  (forall d, latency handle = Some d -> 0 <= d ->
     snd (Execute handle 0 pick w) = Some (returns handle) /\
     now (fst (Execute handle 0 pick w)) = now w + d /\
     invoked (fst (Execute handle 0 pick w)) = N.succ (invoked w)) /\
  (latency handle = None -> snd (Execute handle 0 pick w) = None) /\
  (0 < timeout ->
   (forall d, latency handle = Some d -> timeout < d) ->
     snd (Execute handle timeout pick w) =
       Some (mkResponse None (Some ErrorTimeoutExecute)) /\
     now (fst (Execute handle timeout pick w)) = now w + timeout /\
     fst (Execute handle timeout pick w) =
       Failure (tick timeout (set_invoked N.succ (set_counter add_TotalRequests w))) /\
     TotalFailures (counter (cb (fst (Execute handle timeout pick w)))) =
       U32.add (TotalFailures (counter (cb w))) 1) /\
  (forall d, 0 < timeout -> latency handle = Some d -> 0 <= d < timeout ->
     snd (Execute handle timeout pick w) = Some (returns handle) /\
     now (fst (Execute handle timeout pick w)) = now w + d).
Proof.
  intros Hs.
  pose proof (admission_frame w) as Hadm. simpl in Hadm.
  destruct Hadm as (_ & _ & _ & _ & Hc1 & _ & _ & Hn1 & Hi1).
  set (w1 := set_invoked N.succ (set_counter add_TotalRequests w)) in *.
  assert (Hnow : forall d (r : ResponseCommand A), 0 <= d ->
            now (fst (match Error r with
                      | Some _ => (Failure (tick d w1), Some r)
                      | None => (Success (tick d w1), Some r)
                      end)) = now w + d).
  { intros d r Hd.
    destruct (Failure_frame (tick d w1)) as (_ & _ & _ & _ & Hf & _).
    destruct (Success_frame (tick d w1)) as (_ & _ & _ & _ & _ & Hsn & _).
    destruct (tick_frame d w1) as (_ & _ & _ & Ht & _).
    destruct (Error r); simpl; [rewrite Hf | rewrite Hsn];
      rewrite Ht, Hn1, Z.max_r by lia; reflexivity. }
  assert (Hinv : forall d (r : ResponseCommand A),
            invoked (fst (match Error r with
                          | Some _ => (Failure (tick d w1), Some r)
                          | None => (Success (tick d w1), Some r)
                          end)) = N.succ (invoked w)).
  { intros d r.
    destruct (Failure_frame (tick d w1)) as (_ & _ & _ & _ & _ & Hf).
    destruct (Success_frame (tick d w1)) as (_ & _ & _ & _ & _ & _ & Hsn).
    destruct (tick_frame d w1) as (_ & _ & _ & _ & Ht).
    destruct (Error r); simpl; [rewrite Hf | rewrite Hsn]; rewrite Ht, Hi1; reflexivity. }
  assert (Hzero : Execute handle 0 pick w =
            match latency handle with
            | Some d =>
                match Error (returns handle) with
                | Some _ => (Failure (tick d w1), Some (returns handle))
                | None => (Success (tick d w1), Some (returns handle))
                end
            | None => (w1, None)
            end).
  { rewrite (Execute_admitted _ _ _ _ Hs). cbv zeta. rewrite Z.eqb_refl.
    destruct (latency handle); reflexivity. }
  assert (Hlate : 0 < timeout -> (forall d, latency handle = Some d -> timeout < d) ->
            Execute handle timeout pick w =
              (Failure (tick timeout w1),
               Some (mkResponse None (Some ErrorTimeoutExecute)))).
  { intros Ht Hl. rewrite (Execute_admitted _ _ _ _ Hs). cbv zeta.
    destruct (Z.eqb_spec timeout 0); [lia |].
    rewrite select_case_timer_wins by assumption. reflexivity. }
  assert (Hearly : forall d, 0 < timeout -> latency handle = Some d -> d < timeout ->
            Execute handle timeout pick w =
              match Error (returns handle) with
              | Some _ => (Failure (tick d w1), Some (returns handle))
              | None => (Success (tick d w1), Some (returns handle))
              end).
  { intros d Ht Hl Hd. rewrite (Execute_admitted _ _ _ _ Hs). cbv zeta.
    destruct (Z.eqb_spec timeout 0); [lia |].
    rewrite Hl, select_case_response_wins by assumption. reflexivity. }
  split; [| split; [| split]].
  - intros d Hl Hd. rewrite Hzero, Hl. split; [| split].
    + destruct (Error (returns handle)); reflexivity.
    + apply Hnow. exact Hd.
    + apply Hinv.
  - intros Hl. rewrite Hzero, Hl. reflexivity.
  - intros Ht Hl. rewrite (Hlate Ht Hl). cbn [fst snd].
    split; [reflexivity | split; [| split; [reflexivity |]]].
    + apply (Hnow timeout (mkResponse None (Some ErrorTimeoutExecute))). lia.
    + destruct (Failure_frame (tick timeout w1)) as (_ & _ & Hc & _).
      rewrite Hc. destruct (tick_frame timeout w1) as (Hb & _). rewrite Hb, Hc1.
      reflexivity.
  - intros d Ht Hl [Hd0 Hd]. rewrite (Hearly d Ht Hl Hd). split.
    + destruct (Error (returns handle)); reflexivity.
    + apply Hnow. exact Hd0.
Qed.

Lemma C4_execute_timeout_witness :
  let slow := mkHandle (Some (3 * Second)) (mkResponse (Some 7%nat) None) in
  let w := boot None 0 in
  GetState w <> STATE_OPEN /\
  snd (Execute slow 0 false w) = Some (mkResponse (Some 7%nat) None) /\
  now (fst (Execute slow 0 false w)) = 3 * Second /\
  snd (Execute slow Second false w) = Some (mkResponse None (Some ErrorTimeoutExecute)) /\
  now (fst (Execute slow Second false w)) = Second /\
  TotalFailures (counter (cb (fst (Execute slow Second false w)))) = 1.
Proof.
  intros slow w.
  assert (Hs : GetState w <> STATE_OPEN) by discriminate.
  destruct (C4_execute_timeout slow 0 false w Hs) as [H0 _].
  destruct (H0 (3 * Second) eq_refl ltac:(discriminate)) as [Hr [Hn _]].
  destruct (C4_execute_timeout slow Second false w Hs) as [_ [_ [HT _]]].
  assert (Hlate : forall d, latency slow = Some d -> Second < d).
  { intros d Hd. injection Hd as <-. reflexivity. }
  destruct (HT eq_refl Hlate) as [Hr' [Hn' [_ Hf]]].
  split; [exact Hs |].
  split; [exact Hr |]. split; [exact Hn |]. split; [exact Hr' |].
  split; [exact Hn' |]. rewrite Hf. reflexivity.
Defined.

(** ** Tripping the breaker *)

Lemma failures_succ n w : failures (N.succ n) w = Failure (failures n w).
Proof. unfold failures. apply N.iter_succ. Qed.

Lemma failures_below_limit w :
  GetState w = STATE_CLOSE -> consecFailures (cb w) = 0 ->
  U32.in_range (LimitFailure (options (cb w))) ->
  forall n : N, Z.of_N n <= LimitFailure (options (cb w)) ->
    still_closed n w (failures n w).
Proof.
  intros Hs Hc HL n. induction n as [| n IH] using N.peano_ind; intros Hn.
  - unfold failures. simpl. repeat split; assumption.
  - rewrite failures_succ.
    destruct IH as (Hs' & Hc' & Ho' & He' & Hsn' & Ht' & Hn'); [lia |].
    assert (Hadd : U32.add (Z.of_N n) 1 = Z.of_N n + 1).
    { apply U32Facts.add_small. unfold U32.in_range in HL. lia. }
    rewrite Failure_closed_below; [| exact Hs' | rewrite Hc', Ho', Hadd; lia].
    revert Hs' Hc' Ho' He' Hsn' Ht' Hn'.
    destruct (failures n w) as [[o c e s cf] ts sn nw iv].
    unfold still_closed, GetState. simpl.
    intros -> -> <- <- <- <- <-.
    repeat split. rewrite Hadd. lia.
Qed.

Lemma failures_trip w :
  GetState w = STATE_CLOSE -> consecFailures (cb w) = 0 ->
  U32.in_range (LimitFailure (options (cb w))) ->
  LimitFailure (options (cb w)) < U32.max ->
  let w' := failures (Z.to_N (LimitFailure (options (cb w))) + 1) w in
  GetState w' = STATE_OPEN /\ options (cb w') = options (cb w) /\
  events (cb w') = events (cb w) /\
  sent w' = sent w ++ fan_out (unavailable w) w /\
  timers w' = timers w ++ [now w + TimeoutState (options (cb w))] /\
  now w' = now w.
Proof.
  intros Hs Hc HL Hmax. cbv zeta.
  set (L := Z.to_N (LimitFailure (options (cb w)))).
  destruct (failures_below_limit w Hs Hc HL L)
    as (Hs' & Hc' & Ho' & He' & Hsn' & Ht' & Hn').
  { unfold U32.in_range in HL. subst L. lia. }
  rewrite N.add_1_r, failures_succ.
  assert (HcL : consecFailures (cb (failures L w)) = LimitFailure (options (cb w))).
  { rewrite Hc'. unfold U32.in_range in HL. subst L. lia. }
  rewrite Failure_closed_above; [| exact Hs' |].
  - revert Hs' HcL Ho' He' Hsn' Ht' Hn'. clear.
    destruct (failures L w) as [[o c e s cf] ts sn nw iv].
    destruct w as [[o0 c0 e0 s0 cf0] ts0 sn0 nw0 iv0].
    unfold GetState, fan_out, unavailable. simpl.
    intros -> -> -> -> -> -> ->. repeat split.
  - rewrite HcL, Ho', U32Facts.add_small;
      unfold U32.in_range, U32.max, U32.modulus in *; lia.
Qed.

(** ** Calls that are not overtaken *)

Lemma alone_sends event readers rest :
  forall w,
    alone (sends event readers rest) w =
    alone rest (set_sent (fun s => s ++ map (fun r => (r, event)) readers) w).
Proof.
  induction readers as [| r readers IH]; intros w; simpl.
  - destruct w as [b ts sn nw iv]. simpl. rewrite app_nil_r. reflexivity.
  - rewrite IH. destruct w as [b ts sn nw iv]. simpl.
    rewrite <- app_assoc. reflexivity.
Qed.

(** The functions of the first part are the goroutines run alone. *)
Lemma alone_Failure w : alone Failure_proc w = Failure w.
Proof.
  destruct w as [[o c e s n] ts sn nw iv].
  unfold Failure_proc, Failure_half_open_check, open_proc. unfold_methods. simpl.
  destruct (s =? STATE_CLOSE) eqn:Hc; simpl.
  - destruct (U32.add n 1 >? LimitFailure o); simpl.
    + rewrite alone_sends. reflexivity.
    + destruct (s =? STATE_HALF_OPEN); simpl; [rewrite alone_sends |]; reflexivity.
  - destruct (s =? STATE_HALF_OPEN); simpl; [rewrite alone_sends |]; reflexivity.
Qed.

Lemma alone_timer w : alone timer_proc w = timer_body w.
Proof.
  destruct w as [[o c e s n] ts sn nw iv].
  unfold timer_proc. unfold_methods. simpl.
  destruct (s =? STATE_OPEN); simpl; [rewrite alone_sends |]; reflexivity.
Qed.

Lemma alone_SendEvent event w :
  alone (sends event (events (cb w)) Done) w = SendEvent event w.
Proof. rewrite alone_sends. reflexivity. Qed.

Lemma ahead_start w : ahead (timers w) w w.
Proof.
  split; [reflexivity |]. split; [reflexivity |]. split; [reflexivity |].
  split; [lia |].
  exists [], []. rewrite app_nil_r. split; [reflexivity |]. split; [reflexivity |].
  constructor.
Qed.

Lemma ahead_tick old d wc wa : ahead old wc wa -> ahead old (tick d wc) wa.
Proof.
  intros (Hb & Hs & Hi & Hn & nc & na & Hc & Ha & Hf).
  destruct wc as [bc tc sc nwc ic], wa as [ba ta sa nwa ia].
  unfold ahead. simpl in *.
  repeat split; try assumption; try lia.
  exists nc, na. repeat split; try assumption.
  eapply Forall2_impl; [exact Hf |]. simpl. intros dc da H. lia.
Qed.

Lemma ahead_breaker old (effect : World -> World) (h : Breaker -> Breaker) :
  (forall w, cb (effect w) = h (cb w)) ->
  (forall w, timers (effect w) = timers w) ->
  (forall w, sent (effect w) = sent w) ->
  (forall w, now (effect w) = now w) ->
  (forall w, invoked (effect w) = invoked w) ->
  forall wc wa, ahead old wc wa -> ahead old (effect wc) (effect wa).
Proof.
  intros Hb Ht Hs Hn Hi wc wa (Hb' & Hs' & Hi' & Hn' & nc & na & Hc & Ha & Hf).
  unfold ahead. rewrite !Hb, !Ht, !Hs, !Hn, !Hi, Hb'.
  repeat split; try assumption. exists nc, na. repeat split; assumption.
Qed.

Lemma ahead_SetState old s wc wa :
  ahead old wc wa -> ahead old (SetState s wc) (SetState s wa).
Proof.
  apply (ahead_breaker old (SetState s)
           (fun b => mkBreaker (options b) (counter b) (events b) s (consecFailures b)));
    intros [[o c e s0 n] ts sn nw iv]; reflexivity.
Qed.

Lemma ahead_set_counter old f wc wa :
  ahead old wc wa -> ahead old (set_counter f wc) (set_counter f wa).
Proof.
  apply (ahead_breaker old (set_counter f)
           (fun b => mkBreaker (options b) (f (counter b)) (events b) (state b)
                               (consecFailures b)));
    intros [[o c e s0 n] ts sn nw iv]; reflexivity.
Qed.

Lemma ahead_set_consecFailures old f wc wa :
  ahead old wc wa -> ahead old (set_consecFailures f wc) (set_consecFailures f wa).
Proof.
  apply (ahead_breaker old (set_consecFailures f)
           (fun b => mkBreaker (options b) (counter b) (events b) (state b)
                               (f (consecFailures b))));
    intros [[o c e s0 n] ts sn nw iv]; reflexivity.
Qed.

Lemma ahead_send old reader event wc wa :
  ahead old wc wa -> ahead old (send reader event wc) (send reader event wa).
Proof.
  intros (Hb & Hs & Hi & Hn & nc & na & Hc & Ha & Hf).
  destruct wc as [bc tc sc nwc ic], wa as [ba ta sa nwa ia].
  unfold ahead. simpl in *.
  subst. repeat split; try assumption. exists nc, na. repeat split; assumption.
Qed.

Lemma ahead_StartTimerChangeState old wc wa :
  ahead old wc wa ->
  ahead old (StartTimerChangeState wc) (StartTimerChangeState wa).
Proof.
  intros (Hb & Hs & Hi & Hn & nc & na & Hc & Ha & Hf).
  destruct wc as [bc tc sc nwc ic], wa as [ba ta sa nwa ia].
  unfold ahead. simpl in *.
  subst. repeat split; try assumption.
  exists (nc ++ [nwc + TimeoutState (options ba)]),
         (na ++ [nwa + TimeoutState (options ba)]).
  rewrite !app_assoc. repeat split.
  apply Forall2_app; [exact Hf |]. constructor; [lia | constructor].
Qed.

Lemma timeless_sends old event readers rest :
  timeless old rest -> timeless old (sends event readers rest).
Proof.
  intros Hr. induction readers as [| r readers IH]; simpl; [exact Hr |].
  constructor.
  - intros wc wa. apply ahead_send.
  - reflexivity.
  - intros _. exact IH.
Qed.

Lemma timeless_open_proc old rest : timeless old rest -> timeless old (open_proc rest).
Proof.
  intros Hr. unfold open_proc. constructor.
  - intros wc wa. apply ahead_SetState.
  - reflexivity.
  - intros _. constructor.
    + intros wc wa. apply ahead_StartTimerChangeState.
    + reflexivity.
    + intros _. constructor.
      * intros wc wa H. exact H.
      * intros wc wa (Hb & _). unfold unavailable. rewrite Hb. reflexivity.
      * intros w. apply timeless_sends. exact Hr.
Qed.

Lemma timeless_half_open_check old : timeless old Failure_half_open_check.
Proof.
  unfold Failure_half_open_check. constructor.
  - intros wc wa H. exact H.
  - intros wc wa (Hb & _). unfold IsHalfOpen, GetState. rewrite Hb. reflexivity.
  - intros w. destruct (IsHalfOpen w); [| constructor].
    apply timeless_open_proc. constructor.
Qed.

Lemma timeless_Failure_proc old : timeless old Failure_proc.
Proof.
  unfold Failure_proc. constructor.
  - intros wc wa. apply ahead_set_counter.
  - reflexivity.
  - intros _. constructor.
    + intros wc wa H. exact H.
    + intros wc wa (Hb & _). unfold IsClose, GetState. rewrite Hb. reflexivity.
    + intros w. destruct (IsClose w); [| apply timeless_half_open_check].
      constructor.
      * intros wc wa. apply ahead_set_consecFailures.
      * reflexivity.
      * intros _. constructor.
        -- intros wc wa H. exact H.
        -- intros wc wa (Hb & _). cbv zeta. rewrite Hb. reflexivity.
        -- intros w'. cbv zeta. destruct (_ >? _).
           ++ apply timeless_open_proc, timeless_half_open_check.
           ++ apply timeless_half_open_check.
Qed.

(** A call that no timer goroutine overtakes has the effect of the call
    run alone, later in time. *)
Lemma play_not_overtaken old (sched : list Move) :
  forallb (fun mv => negb (is_MoveWake mv)) sched = true ->
  forall p wc wa m,
    timeless old p -> ahead old wc wa ->
    play sched (mkMachine wc p []) = Some m -> caller m = Done ->
    ahead old (world m) (alone p wa) /\ goroutines m = [].
Proof.
  induction sched as [| mv sched IH]; simpl; intros Hs p wc wa m Hp Ha Hpl Hd.
  - injection Hpl as <-. simpl in *. subst p. simpl. auto.
  - apply andb_prop in Hs as [Hmv Hs].
    destruct mv as [| i | j | d]; simpl in Hpl; try discriminate Hmv.
    + destruct p as [| effect rest]; [discriminate Hpl |].
      inversion Hp as [| e r H1 H2 H3]; subst.
      simpl. rewrite <- (H2 wc wa Ha).
      apply (IH Hs (rest wc) (effect wc) (effect wa) m);
        [apply H3 | apply H1, Ha | exact Hpl | exact Hd].
    + discriminate Hpl.
    + apply (IH Hs p (tick d wc) wa m); try assumption. apply ahead_tick, Ha.
Qed.

(** The call that trips the breaker, when no timer goroutine overtakes
    it: the breaker it leaves is the one [Failure] run alone leaves, and
    so are the events; the timer it started is due [TimeoutState] after
    the instant at which it was started. *)
Lemma tripping_call_not_overtaken w sched m :
  GetState w = STATE_CLOSE -> consecFailures (cb w) = 0 ->
  U32.in_range (LimitFailure (options (cb w))) ->
  LimitFailure (options (cb w)) < U32.max ->
  let L := Z.to_N (LimitFailure (options (cb w))) in
  forallb (fun mv => negb (is_MoveWake mv)) sched = true ->
  play sched (mkMachine (failures L w) Failure_proc []) = Some m ->
  caller m = Done ->
  cb (world m) = cb (failures (L + 1) w) /\
  sent (world m) = sent w ++ fan_out (unavailable w) w /\
  exists started,
    now w <= started <= now (world m) /\
    timers (world m) = timers w ++ [started + TimeoutState (options (cb w))].
Proof.
  intros Hs Hc HL Hmax L Hnw Hpl Hd.
  destruct (failures_below_limit w Hs Hc HL L) as (_ & _ & _ & _ & _ & HtL & _).
  { unfold U32.in_range in HL. subst L. lia. }
  destruct (play_not_overtaken (timers (failures L w)) sched Hnw Failure_proc
              (failures L w) (failures L w) m
              (timeless_Failure_proc _) (ahead_start _) Hpl Hd) as [Ha _].
  rewrite alone_Failure, <- failures_succ, <- N.add_1_r in Ha.
  destruct (failures_trip w Hs Hc HL Hmax) as (_ & _ & _ & Hsn & Htm & Hn).
  fold L in Hsn, Htm, Hn.
  destruct Ha as (Hb & Hsent & _ & Hnow & nc & na & Hc1 & Ha1 & Hf).
  rewrite HtL in Hc1, Ha1. rewrite Htm in Ha1. apply app_inv_head in Ha1. subst na.
  inversion Hf as [| dc da nc' na' Hd1 Hf' E1 E2]; subst.
  inversion Hf'; subst.
  split; [exact Hb |]. split; [rewrite Hsent; exact Hsn |].
  exists (dc - TimeoutState (options (cb w))). rewrite Hn in *.
  split; [lia |]. rewrite Hc1. repeat f_equal. lia.
Qed.

(** C1, as amended: from Closed with a consecutive-failure count of 0,
    the state is still Closed after any [n <= limitFailure] failures in a
    row, and no event has been sent.  When [limitFailure] is below the
    largest [uint32], the next call of [Failure], the
    ([limitFailure]+1)-th, however it is scheduled and however long it
    takes, provided no timer goroutine wakes up before it returns, is
    the one that moves Closed to Open, sends each registered reader
    exactly one Unavailable event and starts exactly one transition
    timer, due [TimeoutState] after the instant it was started.  Nothing
    is said of a call that its own timer overtakes. *)
Theorem C1_trips_after_limit (w : World) :
  GetState w = STATE_CLOSE -> consecFailures (cb w) = 0 ->
  U32.in_range (LimitFailure (options (cb w))) ->
  let L := Z.to_N (LimitFailure (options (cb w))) in
  (forall n : N, (n <= L)%N ->
     GetState (failures n w) = STATE_CLOSE /\ sent (failures n w) = sent w /\
     timers (failures n w) = timers w) /\
  (LimitFailure (options (cb w)) < U32.max ->
   forall (sched : list Move) (m : Machine),
     forallb (fun mv => negb (is_MoveWake mv)) sched = true ->
     play sched (mkMachine (failures L w) Failure_proc []) = Some m ->
     caller m = Done ->
     GetState (world m) = STATE_OPEN /\
     sent (world m) = sent w ++ fan_out (unavailable w) w /\
     Code (unavailable w) = SERVICE_UNAVAILABLE /\
     exists started,
       now w <= started <= now (world m) /\
       timers (world m) = timers w ++ [started + TimeoutState (options (cb w))]).
Proof.
  intros Hs Hc HL L. split.
  - intros n Hn.
    destruct (failures_below_limit w Hs Hc HL n) as (H1 & _ & _ & _ & H2 & H3 & _).
    + unfold U32.in_range in HL. lia.
    + auto.
  - intros Hmax sched m Hnw Hpl Hd.
    destruct (tripping_call_not_overtaken w sched m Hs Hc HL Hmax Hnw Hpl Hd)
      as (Hb & Hsent & Hstarted).
    destruct (failures_trip w Hs Hc HL Hmax) as (Ho & _).
    split; [unfold GetState in *; rewrite Hb; exact Ho |].
    split; [exact Hsent |]. split; [reflexivity | exact Hstarted].
Qed.

Lemma C1_trips_after_limit_witness :
  let w := fst (Subcriber (boot (Some (mkOptions 0 0 2 0 "svc")) 0)) in
  let sched := [MoveCaller; MoveCaller; MoveCaller; MoveCaller; MoveCaller;
                MoveCaller; MoveTick 5; MoveCaller; MoveCaller; MoveCaller] in
  GetState w = STATE_CLOSE /\ consecFailures (cb w) = 0 /\
  GetState (failures 2 w) = STATE_CLOSE /\
  exists m,
    play sched (mkMachine (failures 2 w) Failure_proc []) = Some m /\
    caller m = Done /\
    GetState (world m) = STATE_OPEN /\
    sent (world m) =
      [(0%nat, mkEvent SERVICE_UNAVAILABLE "Service svc is unavailable")] /\
    timers (world m) = [4 * Second].
Proof.
  intros w sched.
  assert (HL : U32.in_range (LimitFailure (options (cb w)))) by (split; discriminate || reflexivity).
  destruct (C1_trips_after_limit w eq_refl eq_refl HL) as [Hbelow Hnext].
  destruct (Hbelow 2%N ltac:(discriminate)) as [H2 _].
  split; [reflexivity |]. split; [reflexivity |]. split; [exact H2 |].
  destruct (play sched (mkMachine (failures 2 w) Failure_proc [])) as [m |] eqn:Hplay;
    [| vm_compute in Hplay; discriminate Hplay].
  assert (Hm : caller m = Done /\ timers (world m) = [4 * Second]).
  { vm_compute in Hplay. injection Hplay as <-. split; reflexivity. }
  destruct Hm as [Hm Ht].
  destruct (Hnext eq_refl sched m eq_refl Hplay Hm) as (H3 & H4 & _ & _).
  exists m. split; [reflexivity |]. split; [exact Hm |].
  split; [exact H3 |]. split; [exact H4 | exact Ht].
Defined.

(** The call left out of C1.  With [timeoutState] at 1 ns the timer the
    second failure starts can expire while the call is still sending:
    its goroutine sets HalfOpen, and the call, reading the state again
    at line 194, opens the breaker a second time.  One call of [Failure]
    has then sent the reader two Unavailable events and started two
    timers. *)
Example Failure_overtaken_by_its_timer :
  exists m,
    play Race.overtaken Race.start1 = Some m /\ caller m = Done /\
    history 0%nat (world Race.start1) = [] /\
    history 0%nat (world m) =
      [SERVICE_UNAVAILABLE; SERVICE_AVAILABLE; SERVICE_UNAVAILABLE] /\
    GetState (world m) = STATE_OPEN /\ timers (world m) = [2].
Proof. eexists. split; [vm_compute; reflexivity |]. repeat split. Qed.

(** With two subscribers the timer goroutine can also run between the
    two sends of the call: the second reader is then sent Available
    first and Unavailable twice in a row. *)
Example Failure_overtaken_between_sends :
  exists m,
    play Race.overtaken_between_sends Race.start2 = Some m /\ caller m = Done /\
    history 0%nat (world m) =
      [SERVICE_UNAVAILABLE; SERVICE_AVAILABLE; SERVICE_UNAVAILABLE] /\
    history 1%nat (world m) =
      [SERVICE_AVAILABLE; SERVICE_UNAVAILABLE; SERVICE_UNAVAILABLE].
Proof. eexists. split; [vm_compute; reflexivity |]. repeat split. Qed.

(** With [limitFailure] at the largest [uint32] no number of failures
    opens the breaker: the count wraps around before it can exceed it. *)
Lemma failures_at_uint32_max w :
  LimitFailure (options (cb w)) = U32.max ->
  GetState w = STATE_CLOSE -> U32.in_range (consecFailures (cb w)) ->
  forall n : N,
    let w' := failures n w in
    GetState w' = STATE_CLOSE /\ U32.in_range (consecFailures (cb w')) /\
    options (cb w') = options (cb w) /\ sent w' = sent w /\ timers w' = timers w.
Proof.
  intros HL Hs Hc n. induction n as [| n IH] using N.peano_ind.
  - unfold failures. simpl. repeat split; solve [assumption | apply Hc].
  - cbv zeta in *. rewrite failures_succ.
    destruct IH as (Hs' & Hc' & Ho' & Hsn' & Ht').
    rewrite Failure_closed_below; [| exact Hs' |].
    + revert Hs' Ho' Hsn' Ht'.
      destruct (failures n w) as [[o c e s cf] ts sn nw iv].
      unfold GetState. simpl.
      intros -> <- <- <-. repeat split; apply U32Facts.add_in_range.
    + rewrite Ho', HL.
      pose proof (U32Facts.add_in_range (consecFailures (cb (failures n w))) 1) as Hr.
      unfold U32.in_range, U32.max, U32.modulus in *. lia.
Qed.

(** C1 as stated fails at [limitFailure = 4294967295]: after
    4294967296 failures in a row from Closed with count 0 the state is
    still Closed and the registered reader has been sent nothing. *)
Lemma C1_limit_uint32_max_never_trips :
  let w := fst (Subcriber (boot (Some (mkOptions 0 0 4294967295 0 "svc")) 0)) in
  events (cb w) = [0%nat] /\
  GetState w = STATE_CLOSE /\ consecFailures (cb w) = 0 /\
  LimitFailure (options (cb w)) = 4294967295 /\
  GetState (failures (4294967295 + 1) w) = STATE_CLOSE /\
  GetState (failures (4294967295 + 1) w) <> STATE_OPEN /\
  sent (failures (4294967295 + 1) w) = [].
Proof.
  intros w.
  assert (Hc : U32.in_range (consecFailures (cb w))) by (split; discriminate || reflexivity).
  destruct (failures_at_uint32_max w eq_refl eq_refl Hc (4294967295 + 1)%N)
    as (Hs & _ & _ & Hsn & _).
  split; [reflexivity |]. split; [reflexivity |]. split; [reflexivity |].
  split; [reflexivity |]. split; [exact Hs |]. split; [| exact Hsn].
  rewrite Hs. discriminate.
Qed.

(** ** One pending transition per Open episode *)

Lemma timer_invariant_ext w w' :
  GetState w' = GetState w -> timers w' = timers w ->
  timer_invariant w -> timer_invariant w'.
Proof. unfold timer_invariant. intros -> ->. exact id. Qed.

Lemma timer_invariant_boot o t : timer_invariant (boot o t).
Proof. right. split; [left |]; reflexivity. Qed.

Lemma timer_invariant_Success w : timer_invariant w -> timer_invariant (Success w).
Proof.
  unfold timer_invariant. intros H. open_world w.
  destruct H as [[-> H] | [[-> | ->] ->]]; simpl; auto.
Qed.

Lemma timer_invariant_Failure w : timer_invariant w -> timer_invariant (Failure w).
Proof.
  unfold timer_invariant. intros H. open_world w.
  destruct H as [[-> H] | [[-> | ->] ->]]; simpl; auto.
  destruct (U32.add cf 1 >? LimitFailure o); simpl; auto.
Qed.

Lemma timer_invariant_fire i w w' :
  fire i w = Some w' -> timer_invariant w -> timer_invariant w'.
Proof.
  unfold fire, timer_invariant. intros Hf H.
  destruct (timers w !! i) as [deadline |] eqn:Hi; [| discriminate].
  destruct (deadline <=? now w); [| discriminate].
  injection Hf as <-.
  destruct H as [[Hs Hlen] | [_ Hnil]].
  - right.
    assert (Hdel : delete i (timers w) = []).
    { apply nil_length_inv. rewrite length_delete by eauto. lia. }
    open_world w. subst. rewrite Hdel. simpl. auto.
  - rewrite Hnil in Hi. discriminate.
Qed.

Lemma timer_invariant_Execute {A : Type} (handle : HandleFunc A) timeout pick w :
  timer_invariant w -> timer_invariant (fst (Execute handle timeout pick w)).
Proof.
  intros H.
  assert (Hadm : timer_invariant (set_invoked N.succ (set_counter add_TotalRequests w))).
  { revert H. apply timer_invariant_ext; destruct w as [[o c e s n] ts sn nw iv]; reflexivity. }
  assert (Htick : forall d,
            timer_invariant (tick d (set_invoked N.succ (set_counter add_TotalRequests w)))).
  { intros d. revert Hadm. apply timer_invariant_ext;
      destruct w as [[o c e s n] ts sn nw iv]; reflexivity. }
  destruct (Z.eq_dec (GetState w) STATE_OPEN) as [Ho | Ho].
  - rewrite (Execute_open _ _ _ _ Ho). simpl. revert H.
    apply timer_invariant_ext; destruct w as [[o c e s n] ts sn nw iv]; reflexivity.
  - rewrite (Execute_admitted _ _ _ _ Ho). cbv zeta.
    destruct (timeout =? 0).
    + destruct (latency handle); [| exact Hadm].
      destruct (Error (returns handle)); cbn [fst];
        [apply timer_invariant_Failure | apply timer_invariant_Success]; apply Htick.
    + destruct (select_case (latency handle) timeout pick).
      * destruct (Error (returns handle)); cbn [fst];
          [apply timer_invariant_Failure | apply timer_invariant_Success]; apply Htick.
      * cbn [fst Error]. apply timer_invariant_Failure, Htick.
Qed.

Lemma timer_invariant_perform {A : Type} (c : Call A) w w' :
  is_SetState c = false -> perform c w = Some w' ->
  timer_invariant w -> timer_invariant w'.
Proof.
  intros Hc Hp H. destruct c; simpl in Hp; try discriminate Hc.
  - pose proof (timer_invariant_Execute handle timeout pick w H) as HE.
    destruct (Execute handle timeout pick w) as [w1 [r |]]; [| discriminate].
    injection Hp as <-. exact HE.
  - injection Hp as <-. apply timer_invariant_Success, H.
  - injection Hp as <-. apply timer_invariant_Failure, H.
  - injection Hp as <-. revert H.
    apply timer_invariant_ext; destruct w as [[o c e s n] ts sn nw iv]; reflexivity.
  - injection Hp as <-. revert H.
    apply timer_invariant_ext; destruct w as [[o c e s n] ts sn nw iv]; reflexivity.
  - eapply timer_invariant_fire; eassumption.
  - injection Hp as <-. revert H.
    apply timer_invariant_ext; destruct w as [[o c e s n] ts sn nw iv]; reflexivity.
Qed.

Lemma timer_invariant_run {A : Type} (cs : list (Call A)) :
  forallb (fun c => negb (is_SetState c)) cs = true ->
  forall w w', run cs w = Some w' -> timer_invariant w -> timer_invariant w'.
Proof.
  induction cs as [| c cs IH]; simpl; intros Hcs w w' Hr H.
  - injection Hr as <-. exact H.
  - apply andb_prop in Hcs as [Hc Hcs].
    destruct (perform c w) as [w1 |] eqn:Hp; [| discriminate].
    apply (IH Hcs w1 w' Hr).
    apply (timer_invariant_perform c w w1); [| exact Hp | exact H].
    destruct (is_SetState c); [discriminate | reflexivity].
Qed.

(** C6, as amended: in every configuration produced from a fresh breaker
    by calls of [Execute], [Success], [Failure], [Reject], [Subcriber]
    and by timer firings and the passing of time, but not by [SetState],
    exactly one transition to HalfOpen is pending if the state is Open,
    and none is pending otherwise. *)
Theorem C6_one_timer_while_open {A : Type} (cs : list (Call A))
    (given : option OptionsConfig) (unixnano : Z) (w : World) :
  forallb (fun c => negb (is_SetState c)) cs = true ->
  run cs (boot given unixnano) = Some w ->
  (GetState w = STATE_OPEN -> length (timers w) = 1%nat) /\
  (GetState w <> STATE_OPEN -> length (timers w) = 0%nat).
Proof.
  intros Hcs Hr.
  pose proof (timer_invariant_run cs Hcs _ _ Hr (timer_invariant_boot given unixnano)) as H.
  destruct H as [[Hs Hl] | [Hs Hl]].
  - split; [intros _; exact Hl | intros Hn; contradiction].
  - split.
    + intros Ho. rewrite Ho in Hs. destruct Hs; discriminate.
    + intros _. rewrite Hl. reflexivity.
Qed.

Lemma C6_one_timer_while_open_witness :
  exists w,
    run (firstn 4 Scenario.script) (boot (Some Scenario.opts) 0) = Some w /\
    GetState w = STATE_OPEN /\ length (timers w) = 1%nat.
Proof.
  eexists. split; [reflexivity |]. split; [reflexivity |].
  eapply (C6_one_timer_while_open (firstn 4 Scenario.script) (Some Scenario.opts) 0);
    reflexivity.
Defined.

(** C6 as stated fails: [SetState] is a public operation, and after
    [NewBreaker] then [SetState(STATE_OPEN)] the state is Open with no
    transition pending. *)
Lemma C6_SetState_opens_without_timer :
  exists w,
    run [CallSetState (A := unit) STATE_OPEN] (boot None 0) = Some w /\
    GetState w = STATE_OPEN /\ length (timers w) = 0%nat /\
    ~ open_has_one_timer w.
Proof.
  eexists. split; [reflexivity |]. split; [reflexivity |]. split; [reflexivity |].
  unfold open_has_one_timer. intros H. specialize (H eq_refl). discriminate H.
Qed.

(** [SetState] also makes two transitions pending at once: Open, back to
    HalfOpen by hand, and one failed probe. *)
Example SetState_two_timers :
  exists w,
    run [CallSetState (A := unit) STATE_HALF_OPEN; CallFailure;
         CallSetState STATE_HALF_OPEN; CallFailure] (boot None 0) = Some w /\
    GetState w = STATE_OPEN /\ length (timers w) = 2%nat.
Proof. eexists. repeat split. Qed.

(** ** Errors and events the breaker produces *)

Lemma Execute_response {A : Type} (handle : HandleFunc A) timeout pick w w' r :
  Execute handle timeout pick w = (w', Some r) ->
  (GetState w = STATE_OPEN /\ r = mkResponse None (Some ErrorServiceUnavailable)) \/
  (GetState w <> STATE_OPEN /\ timeout <> 0 /\
   r = mkResponse None (Some ErrorTimeoutExecute)) \/
  (GetState w <> STATE_OPEN /\ r = returns handle).
Proof.
  intros HE. destruct (Z.eq_dec (GetState w) STATE_OPEN) as [Ho | Ho].
  - rewrite (Execute_open _ _ _ _ Ho) in HE. injection HE as _ <-. auto.
  - rewrite (Execute_admitted _ _ _ _ Ho) in HE. cbv zeta in HE.
    destruct (Z.eqb_spec timeout 0).
    + destruct (latency handle); [| discriminate].
      destruct (Error (returns handle)); injection HE as _ <-; auto.
    + destruct (select_case (latency handle) timeout pick).
      * destruct (Error (returns handle)); injection HE as _ <-; auto.
      * cbn [Error] in HE. injection HE as _ <-. auto.
Qed.

Lemma breaker_event_not_an_error name event :
  breaker_event name event -> Message event <> "To many requests"%string.
Proof. intros [-> | ->]; simpl; discriminate. Qed.

Lemma emits_refl w w' :
  options (cb w') = options (cb w) -> sent w' = sent w -> emits_at_most_one w w'.
Proof. intros Ho Hs. split; auto. Qed.

Lemma emits_shift w0 w w' :
  options (cb w) = options (cb w0) -> events (cb w) = events (cb w0) ->
  sent w = sent w0 ->
  emits_at_most_one w w' -> emits_at_most_one w0 w'.
Proof.
  unfold emits_at_most_one, fan_out, unavailable, available.
  intros -> -> ->. exact id.
Qed.

Lemma emits_Failure w : emits_at_most_one w (Failure w).
Proof.
  destruct (Failure_frame w) as (Ho & _ & _ & Hs & _).
  split; [exact Ho | tauto].
Qed.

Lemma emits_Success w : emits_at_most_one w (Success w).
Proof.
  destruct (Success_frame w) as (Ho & _ & _ & _ & Hs & _). split; auto.
Qed.

Lemma emits_fire i w w' : fire i w = Some w' -> emits_at_most_one w w'.
Proof.
  unfold fire. intros Hf.
  destruct (timers w !! i); [| discriminate].
  destruct (_ <=? _); [| discriminate]. injection Hf as <-.
  apply (emits_shift w (set_timers (delete i) w));
    try (destruct w as [[o c e s n] ts sn nw iv]; reflexivity).
  destruct (timer_body_frame (set_timers (delete i) w)) as (Ho & _ & _ & Hs & _).
  split; [exact Ho | tauto].
Qed.

Lemma emits_Execute {A : Type} (handle : HandleFunc A) timeout pick w :
  emits_at_most_one w (fst (Execute handle timeout pick w)).
Proof.
  assert (Hsh : forall d w',
            emits_at_most_one
              (tick d (set_invoked N.succ (set_counter add_TotalRequests w))) w' ->
            emits_at_most_one w w').
  { intros d w'. apply emits_shift; destruct w as [[o c e s n] ts sn nw iv]; reflexivity. }
  destruct (Z.eq_dec (GetState w) STATE_OPEN) as [Ho | Ho].
  - rewrite (Execute_open _ _ _ _ Ho).
    apply emits_refl; destruct w as [[o c e s n] ts sn nw iv]; reflexivity.
  - rewrite (Execute_admitted _ _ _ _ Ho). cbv zeta.
    destruct (timeout =? 0).
    + destruct (latency handle) as [d |].
      * destruct (Error (returns handle)); cbn [fst]; apply (Hsh d);
          [apply emits_Failure | apply emits_Success].
      * apply emits_refl; destruct w as [[o c e s n] ts sn nw iv]; reflexivity.
    + destruct (select_case (latency handle) timeout pick) as [d | d].
      * destruct (Error (returns handle)); cbn [fst]; apply (Hsh d);
          [apply emits_Failure | apply emits_Success].
      * cbn [fst Error]. apply (Hsh d), emits_Failure.
Qed.

Lemma emits_perform {A : Type} (c : Call A) w w' :
  perform c w = Some w' -> emits_at_most_one w w'.
Proof.
  destruct c; simpl; intros Hp.
  - pose proof (emits_Execute handle timeout pick w) as HE.
    destruct (Execute handle timeout pick w) as [w1 [r |]]; [| discriminate].
    injection Hp as <-. exact HE.
  - injection Hp as <-. apply emits_Success.
  - injection Hp as <-. apply emits_Failure.
  - injection Hp as <-.
    apply emits_refl; destruct w as [[o c e s n] ts sn nw iv]; reflexivity.
  - injection Hp as <-.
    apply emits_refl; destruct w as [[o c e s n] ts sn nw iv]; reflexivity.
  - injection Hp as <-.
    apply emits_refl; destruct w as [[o c e s n] ts sn nw iv]; reflexivity.
  - apply (emits_fire i). exact Hp.
  - injection Hp as <-.
    apply emits_refl; destruct w as [[o c e s n] ts sn nw iv]; reflexivity.
Qed.

Lemma only_breaker_events_step w w' :
  emits_at_most_one w w' -> only_breaker_events w -> only_breaker_events w'.
Proof.
  unfold emits_at_most_one, only_breaker_events.
  intros [-> Hs] H.
  destruct Hs as [-> | [-> | ->]]; [exact H | |];
    (apply Forall_app; split; [exact H |]);
    unfold fan_out; apply List.Forall_map, Forall_forall; intros reader _; simpl.
  - left. reflexivity.
  - right. reflexivity.
Qed.

Lemma only_breaker_events_run {A : Type} (cs : list (Call A)) :
  forall w w', run cs w = Some w' -> only_breaker_events w -> only_breaker_events w'.
Proof.
  induction cs as [| c cs IH]; simpl; intros w w' Hr H.
  - injection Hr as <-. exact H.
  - destruct (perform c w) as [w1 |] eqn:Hp; [| discriminate].
    apply (IH w1 w' Hr).
    apply (only_breaker_events_step w w1); [| exact H].
    apply (emits_perform c). exact Hp.
Qed.

(** C8, as amended: the breaker never raises the TooManyRequests error
    itself.  A result of [Execute] carries it only when the call was
    admitted and the wrapped operation returned it, [Execute] handing the
    operation's response back unchanged; and in every run from a fresh
    breaker, whatever is called, every event sent is an Available or
    Unavailable event of this breaker, never that error's message. *)
Theorem C8_TooManyRequests_only_from_operation {A : Type} :
  (forall (handle : HandleFunc A) (timeout : Duration) (pick : bool)
          (w w' : World) (r : ResponseCommand A),
     Execute handle timeout pick w = (w', Some r) ->
     Error r = Some ErrorToManyRequest ->
     GetState w <> STATE_OPEN /\ r = returns handle) /\
  (forall (cs : list (Call A)) (given : option OptionsConfig) (unixnano : Z)
          (w : World) (reader : chan) (event : BreakerEvent),
     run cs (boot given unixnano) = Some w ->
     In (reader, event) (sent w) ->
     breaker_event (NameService (options (cb w))) event /\
     Message event <> "To many requests"%string).
Proof.
  split.
  - intros handle timeout pick w w' r HE Hr.
    destruct (Execute_response _ _ _ _ _ _ HE) as [[_ ->] | [[_ [_ ->]] | H]];
      [discriminate Hr | discriminate Hr | exact H].
  - intros cs given unixnano w reader event Hr Hin.
    assert (H : only_breaker_events w).
    { apply (only_breaker_events_run cs _ _ Hr). constructor. }
    unfold only_breaker_events in H.
    rewrite List.Forall_forall in H. specialize (H _ Hin). simpl in H.
    split; [exact H | exact (breaker_event_not_an_error _ _ H)].
Qed.

Lemma C8_TooManyRequests_only_from_operation_witness :
  let handle := mkHandle (Some 0) (mkResponse (@None nat) (Some ErrorToManyRequest)) in
  let w := boot None 0 in
  Error (returns handle) = Some ErrorToManyRequest /\
  snd (Execute handle 0 false w) = Some (returns handle) /\
  GetState w <> STATE_OPEN.
Proof.
  intros handle w.
  destruct (@C8_TooManyRequests_only_from_operation nat) as [H _].
  destruct (H handle 0 false w (fst (Execute handle 0 false w)) (returns handle)
              eq_refl eq_refl) as [Hs _].
  split; [reflexivity | split; [reflexivity | exact Hs]].
Defined.

(** C8 as stated fails: [ErrorToManyRequest] is a public method, and an
    operation that returns its error gets it back from [Execute]. *)
Lemma C8_operation_returns_TooManyRequests :
  let handle := mkHandle (Some 0) (mkResponse (@None nat) (Some ErrorToManyRequest)) in
  exists w' r,
    Execute handle 0 false (boot None 0) = (w', Some r) /\
    Error r = Some ErrorToManyRequest.
Proof. intros handle. eexists. eexists. split; reflexivity. Qed.

(** ** Counter balance *)

Lemma Execute_counter {A : Type} (handle : HandleFunc A) timeout pick w w' r :
  Execute handle timeout pick w = (w', Some r) ->
  counter (cb w') =
    (if IsOpen w then add_TotalRejects
     else match Error r with
          | Some _ => add_TotalFailures
          | None => add_TotalSucceses
          end) (add_TotalRequests (counter (cb w))).
Proof.
  intros HE. unfold IsOpen.
  destruct (Z.eqb_spec (GetState w) STATE_OPEN) as [Ho | Ho].
  - rewrite (Execute_open _ _ _ _ Ho) in HE. injection HE as <- _.
    destruct w as [[o c e s n] ts sn nw iv]. reflexivity.
  - rewrite (Execute_admitted _ _ _ _ Ho) in HE. cbv zeta in HE.
    assert (HF : forall d,
              counter (cb (Failure (tick d (set_invoked N.succ
                (set_counter add_TotalRequests w))))) =
              add_TotalFailures (add_TotalRequests (counter (cb w)))).
    { intros d. destruct (Failure_frame (tick d (set_invoked N.succ
        (set_counter add_TotalRequests w)))) as (_ & _ & -> & _).
      destruct w as [[o c e s n] ts sn nw iv]. reflexivity. }
    assert (HS : forall d,
              counter (cb (Success (tick d (set_invoked N.succ
                (set_counter add_TotalRequests w))))) =
              add_TotalSucceses (add_TotalRequests (counter (cb w)))).
    { intros d. destruct (Success_frame (tick d (set_invoked N.succ
        (set_counter add_TotalRequests w)))) as (_ & _ & -> & _).
      destruct w as [[o c e s n] ts sn nw iv]. reflexivity. }
    destruct (timeout =? 0).
    + destruct (latency handle) as [d |]; [| discriminate].
      destruct (Error (returns handle)) eqn:Her; injection HE as <- <-;
        rewrite Her; [apply HF | apply HS].
    + destruct (select_case (latency handle) timeout pick) as [d | d].
      * destruct (Error (returns handle)) eqn:Her; injection HE as <- <-;
          rewrite Her; [apply HF | apply HS].
      * cbn [Error] in HE. injection HE as <- <-. apply HF.
Qed.

Lemma add_mod_succ x : U32.add (x mod U32.modulus) 1 = (x + 1) mod U32.modulus.
Proof. unfold U32.add. apply Z.add_mod_idemp_l. discriminate. Qed.

Lemma tallied_reject n c :
  tallied n c -> tallied (n + 1) (add_TotalRejects (add_TotalRequests c)).
Proof.
  intros (s & f & r & Hs & Hf & Hr & Hn & H1 & H2 & H3 & H4).
  exists s, f, (r + 1). simpl.
  rewrite H1, H4, !add_mod_succ. repeat split; try assumption; lia.
Qed.

Lemma tallied_failure n c :
  tallied n c -> tallied (n + 1) (add_TotalFailures (add_TotalRequests c)).
Proof.
  intros (s & f & r & Hs & Hf & Hr & Hn & H1 & H2 & H3 & H4).
  exists s, (f + 1), r. simpl.
  rewrite H1, H3, !add_mod_succ. repeat split; try assumption; lia.
Qed.

Lemma tallied_success n c :
  tallied n c -> tallied (n + 1) (add_TotalSucceses (add_TotalRequests c)).
Proof.
  intros (s & f & r & Hs & Hf & Hr & Hn & H1 & H2 & H3 & H4).
  exists (s + 1), f, r. simpl.
  rewrite H1, H2, !add_mod_succ. repeat split; try assumption; lia.
Qed.

Lemma tallied_perform {A : Type} (c : Call A) w w' n :
  is_Execute_or_runtime c = true -> perform c w = Some w' ->
  tallied n (counter (cb w)) ->
  tallied (n + (if is_Execute c then 1 else 0)) (counter (cb w')).
Proof.
  intros Hc Hp H. destruct c; simpl in Hp; try discriminate Hc; simpl.
  - destruct (Execute handle timeout pick w) as [w1 [r |]] eqn:HE; [| discriminate].
    injection Hp as <-. rewrite (Execute_counter _ _ _ _ _ _ HE).
    destruct (IsOpen w); [apply tallied_reject, H |].
    destruct (Error r); [apply tallied_failure, H | apply tallied_success, H].
  - injection Hp as <-. rewrite Z.add_0_r.
    destruct w as [[o c e s m] ts sn nw iv]. exact H.
  - rewrite Z.add_0_r. unfold fire in Hp.
    destruct (timers w !! i); [| discriminate].
    destruct (_ <=? _); [| discriminate]. injection Hp as <-.
    destruct (timer_body_frame (set_timers (delete i) w)) as (_ & _ & -> & _).
    destruct w as [[o c e s m] ts sn nw iv]. exact H.
  - injection Hp as <-. rewrite Z.add_0_r.
    destruct w as [[o c e s m] ts sn nw iv]. exact H.
Qed.

Lemma tallied_run {A : Type} (cs : list (Call A)) :
  forallb is_Execute_or_runtime cs = true ->
  forall w w' n, run cs w = Some w' ->
    tallied n (counter (cb w)) -> tallied (n + executes cs) (counter (cb w')).
Proof.
  induction cs as [| c cs IH]; simpl; intros Hcs w w' n Hr H.
  - injection Hr as <-. rewrite Z.add_0_r. exact H.
  - apply andb_prop in Hcs as [Hc Hcs].
    destruct (perform c w) as [w1 |] eqn:Hp; [| discriminate].
    rewrite Z.add_assoc. apply (IH Hcs w1 w' _ Hr).
    apply (tallied_perform c w w1 n Hc Hp H).
Qed.

Lemma executes_nonneg {A : Type} (cs : list (Call A)) : 0 <= executes cs.
Proof. induction cs as [| c cs IH]; simpl; [lia | destruct (is_Execute c); lia]. Qed.

Lemma tallied_balance n c :
  tallied n c ->
  TotalRequests c =
    U32.add (U32.add (TotalSucceses c) (TotalFailures c)) (TotalRejects c) /\
  (n < U32.modulus ->
   TotalRequests c = TotalSucceses c + TotalFailures c + TotalRejects c).
Proof.
  intros (s & f & r & Hs & Hf & Hr & Hn & -> & -> & -> & ->). split.
  - unfold U32.add. rewrite <- Hn.
    rewrite <- (Z.add_mod s f) by discriminate.
    rewrite <- (Z.add_mod (s + f) r) by discriminate. reflexivity.
  - intros Hlt. rewrite !Z.mod_small by lia. lia.
Qed.

(** C9: an [Execute] call that returns has added one to the request
    counter and one to exactly one other counter, the other two being
    left alone: rejects when the call found the state Open, otherwise
    failures when the returned error is not nil and successes when it is
    nil.  Hence after any run of [Execute] calls on a fresh breaker (with
    subscriptions, timer firings and waiting in between) the request
    counter is the [uint32] sum of the three others, and their exact sum
    as long as fewer than 2^32 calls were made. *)
Theorem C9_counters_balance {A : Type} :
  (forall (handle : HandleFunc A) (timeout : Duration) (pick : bool)
          (w w' : World) (r : ResponseCommand A),
     Execute handle timeout pick w = (w', Some r) ->
     let c := counter (cb w) in
     let c' := counter (cb w') in
     TotalRequests c' = U32.add (TotalRequests c) 1 /\
     (GetState w = STATE_OPEN ->
        TotalRejects c' = U32.add (TotalRejects c) 1 /\
        TotalSucceses c' = TotalSucceses c /\ TotalFailures c' = TotalFailures c) /\
     (GetState w <> STATE_OPEN -> Error r <> None ->
        TotalFailures c' = U32.add (TotalFailures c) 1 /\
        TotalSucceses c' = TotalSucceses c /\ TotalRejects c' = TotalRejects c) /\
     (GetState w <> STATE_OPEN -> Error r = None ->
        TotalSucceses c' = U32.add (TotalSucceses c) 1 /\
        TotalFailures c' = TotalFailures c /\ TotalRejects c' = TotalRejects c)) /\
  (forall (cs : list (Call A)) (given : option OptionsConfig) (unixnano : Z)
          (w : World),
     forallb is_Execute_or_runtime cs = true ->
     run cs (boot given unixnano) = Some w ->
     let c := counter (cb w) in
     TotalRequests c =
       U32.add (U32.add (TotalSucceses c) (TotalFailures c)) (TotalRejects c) /\
     (executes cs < U32.modulus ->
      TotalRequests c = TotalSucceses c + TotalFailures c + TotalRejects c)).
Proof.
  split.
  - intros handle timeout pick w w' r HE c c'. subst c c'.
    rewrite (Execute_counter _ _ _ _ _ _ HE). unfold IsOpen.
    destruct (Z.eqb_spec (GetState w) STATE_OPEN) as [Ho | Ho].
    + repeat split; intros; try contradiction; reflexivity.
    + destruct (Error r); repeat split; intros; try contradiction;
        try discriminate; try reflexivity; congruence.
  - intros cs given unixnano w Hcs Hr c. subst c.
    apply (tallied_balance (0 + executes cs)).
    apply (tallied_run cs Hcs _ _ 0 Hr).
    exists 0, 0, 0. repeat split; reflexivity || lia.
Qed.

Lemma C9_counters_balance_witness :
  exists w,
    run Scenario.script (boot (Some Scenario.opts) 0) = Some w /\
    executes Scenario.script < U32.modulus /\
    counter (cb w) = mkCounter 5 1 3 1 /\
    TotalRequests (counter (cb w)) =
      TotalSucceses (counter (cb w)) + TotalFailures (counter (cb w)) +
      TotalRejects (counter (cb w)).
Proof.
  eexists. split; [reflexivity |].
  split; [reflexivity |]. split; [reflexivity |].
  destruct (@C9_counters_balance string) as [_ H].
  refine (proj2 (H Scenario.script (Some Scenario.opts) 0 _ eq_refl eq_refl) eq_refl).
Defined.

(** ** Event bus and the scenario of the specification *)

(** The relay never lets a subscriber's queue grow beyond 100 events. *)
Lemma relay_bounded (outputChannel : list BreakerEvent) (event : BreakerEvent) :
  (length outputChannel <= 100)%nat -> (length (relay outputChannel event) <= 100)%nat.
Proof.
  intros H. unfold relay.
  destruct (Nat.ltb_spec (length outputChannel) 100) as [Hlt | Hge];
    rewrite length_app; simpl.
  - lia.
  - destruct outputChannel; simpl in *; lia.
Qed.

(** Three failing calls open the breaker, the fourth call is rejected,
    60 ms later the timer moves it to HalfOpen, and one working call
    closes it again. *)
Example scenario_states :
  (GetState <$> run (firstn 3 Scenario.script) (boot (Some Scenario.opts) 0)) = Some STATE_CLOSE /\
  (GetState <$> run (firstn 4 Scenario.script) (boot (Some Scenario.opts) 0)) = Some STATE_OPEN /\
  (GetState <$> run (firstn 5 Scenario.script) (boot (Some Scenario.opts) 0)) = Some STATE_OPEN /\
  (GetState <$> run (firstn 7 Scenario.script) (boot (Some Scenario.opts) 0)) = Some STATE_HALF_OPEN /\
  (GetState <$> run Scenario.script (boot (Some Scenario.opts) 0)) = Some STATE_CLOSE.
Proof. repeat split. Qed.

(** The timer cannot fire before [timeoutState] has elapsed. *)
Example scenario_timer_too_early :
  (run (firstn 5 Scenario.script ++ [TimePasses (40 * Scenario.ms); TimerFires 0%nat])
       (boot (Some Scenario.opts) 0)) = None.
Proof. reflexivity. Qed.

(** * Further properties of the package *)

(** ** State names *)

(** X1: [toString] names the three states "close", "half_open" and
    "open", each name standing for exactly one state, and names every
    other value of [State] "undefine". *)
Theorem toString_names (s : State) :
  (toString s = "close"%string <-> s = STATE_CLOSE) /\
  (toString s = "half_open"%string <-> s = STATE_HALF_OPEN) /\
  (toString s = "open"%string <-> s = STATE_OPEN) /\
  (toString s = "undefine"%string <->
     s <> STATE_CLOSE /\ s <> STATE_HALF_OPEN /\ s <> STATE_OPEN).
Proof.
  unfold toString.
  destruct (Z.eqb_spec s STATE_CLOSE) as [-> | H1].
  { repeat split; intros; try discriminate; try reflexivity; tauto. }
  destruct (Z.eqb_spec s STATE_HALF_OPEN) as [-> | H2].
  { repeat split; intros; try discriminate; try reflexivity; tauto. }
  destruct (Z.eqb_spec s STATE_OPEN) as [-> | H3].
  { repeat split; intros; try discriminate; try reflexivity; tauto. }
  repeat split; intros; try discriminate; try contradiction; try assumption;
    reflexivity.
Qed.

(** ** The subscriber's queue *)

Lemma relay_drop (q : list BreakerEvent) (event : BreakerEvent) :
  (length q <= 100)%nat ->
  relay q event = skipn (length (q ++ [event]) - 100) (q ++ [event]).
Proof.
  intros H. unfold relay. rewrite length_app. simpl.
  destruct (Nat.ltb_spec (length q) 100) as [Hlt | Hge].
  - replace (length q + 1 - 100)%nat with 0%nat by lia. reflexivity.
  - replace (length q + 1 - 100)%nat with 1%nat by lia.
    destruct q; [simpl in Hge; lia | reflexivity].
Qed.

Lemma fold_relay (evs q : list BreakerEvent) :
  (length q <= 100)%nat ->
  fold_left relay evs q = skipn (length (q ++ evs) - 100) (q ++ evs).
Proof.
  revert q. induction evs as [| e evs IH]; intros q Hq.
  - simpl. rewrite app_nil_r.
    replace (length q - 100)%nat with 0%nat by lia. reflexivity.
  - simpl. rewrite IH by (apply relay_bounded; exact Hq).
    rewrite (relay_drop q e Hq).
    set (k := (length (q ++ [e]) - 100)%nat).
    assert (Hk : (k <= length (q ++ [e]))%nat) by (subst k; lia).
    assert (Happ : skipn k (q ++ [e]) ++ evs = skipn k ((q ++ [e]) ++ evs)).
    { rewrite (List.skipn_app k (q ++ [e]) evs).
      replace (k - length (q ++ [e]))%nat with 0%nat by lia. reflexivity. }
    rewrite Happ, List.skipn_skipn. rewrite <- app_assoc. simpl.
    f_equal. rewrite List.length_skipn.
    subst k. rewrite !length_app in *. simpl in *. lia.
Qed.

(** X2: a subscriber that is not being read finds in its queue the most
    recent 100 of the events relayed to it, in the order in which they
    were sent: nothing is lost up to 100 events, and beyond that it is the
    oldest events that are dropped. *)
Theorem relay_keeps_latest (evs : list BreakerEvent) :
  relay_all evs = skipn (length evs - 100) evs /\
  length (relay_all evs) = Nat.min (length evs) 100.
Proof.
  unfold relay_all.
  rewrite (fold_relay evs []) by (simpl; lia). simpl.
  split; [reflexivity |]. rewrite List.length_skipn. lia.
Qed.

(** ** Configuration and registry *)

Lemma Execute_events {A : Type} (handle : HandleFunc A) timeout pick w :
  events (cb (fst (Execute handle timeout pick w))) = events (cb w).
Proof.
  assert (Hadm : forall d,
            events (cb (tick d (set_invoked N.succ (set_counter add_TotalRequests w)))) =
            events (cb w)).
  { intros d. destruct w as [[o c e s n] ts sn nw iv]. reflexivity. }
  assert (HF : forall d,
            events (cb (Failure (tick d (set_invoked N.succ
              (set_counter add_TotalRequests w))))) = events (cb w)).
  { intros d. destruct (Failure_frame (tick d (set_invoked N.succ
      (set_counter add_TotalRequests w)))) as (_ & -> & _). apply Hadm. }
  assert (HS : forall d,
            events (cb (Success (tick d (set_invoked N.succ
              (set_counter add_TotalRequests w))))) = events (cb w)).
  { intros d. destruct (Success_frame (tick d (set_invoked N.succ
      (set_counter add_TotalRequests w)))) as (_ & -> & _). apply Hadm. }
  destruct (Z.eq_dec (GetState w) STATE_OPEN) as [Ho | Ho].
  - rewrite (Execute_open _ _ _ _ Ho).
    destruct w as [[o c e s n] ts sn nw iv]. reflexivity.
  - rewrite (Execute_admitted _ _ _ _ Ho). cbv zeta.
    destruct (timeout =? 0).
    + destruct (latency handle) as [d |].
      * destruct (Error (returns handle)); cbn [fst]; [apply HF | apply HS].
      * destruct w as [[o c e s n] ts sn nw iv]. reflexivity.
    + destruct (select_case (latency handle) timeout pick) as [d | d].
      * destruct (Error (returns handle)); cbn [fst]; [apply HF | apply HS].
      * cbn [fst Error]. apply HF.
Qed.

Lemma perform_events {A : Type} (c : Call A) w w' :
  perform c w = Some w' ->
  events (cb w') =
    events (cb w) ++ seq (length (events (cb w))) (subscriptions [c]).
Proof.
  destruct c; simpl; intros Hp; rewrite ?app_nil_r.
  - pose proof (Execute_events handle timeout pick w) as HE.
    destruct (Execute handle timeout pick w) as [w1 [r |]]; [| discriminate].
    injection Hp as <-. exact HE.
  - injection Hp as <-. apply Success_frame.
  - injection Hp as <-. apply Failure_frame.
  - injection Hp as <-. destruct w as [[o c e s n] ts sn nw iv]. reflexivity.
  - injection Hp as <-. destruct w as [[o c e s n] ts sn nw iv]. reflexivity.
  - injection Hp as <-. destruct w as [[o c e s n] ts sn nw iv]. reflexivity.
  - unfold fire in Hp. destruct (timers w !! i); [| discriminate].
    destruct (_ <=? _); [| discriminate]. injection Hp as <-.
    destruct (timer_body_frame (set_timers (delete i) w)) as (_ & -> & _).
    destruct w as [[o c e s n] ts sn nw iv]. reflexivity.
  - injection Hp as <-. destruct w as [[o c e s n] ts sn nw iv]. reflexivity.
Qed.

Lemma subscriptions_cons {A : Type} (c : Call A) cs :
  subscriptions (c :: cs) = (subscriptions [c] + subscriptions cs)%nat.
Proof. destruct c; reflexivity. Qed.

Lemma run_events {A : Type} (cs : list (Call A)) :
  forall w w', run cs w = Some w' ->
    events (cb w') =
      events (cb w) ++ seq (length (events (cb w))) (subscriptions cs).
Proof.
  induction cs as [| c cs IH]; intros w w' Hr.
  - simpl in Hr. injection Hr as <-. simpl. rewrite app_nil_r. reflexivity.
  - simpl in Hr. destruct (perform c w) as [w1 |] eqn:Hp; [| discriminate].
    rewrite (subscriptions_cons c cs), (IH _ _ Hr), (perform_events _ _ _ Hp).
    rewrite length_app, length_seq, <- app_assoc, seq_app. reflexivity.
Qed.

(** X3: the configuration is fixed at construction: no call, [SetState]
    included, and no timer changes the options of the breaker. *)
Theorem options_immutable {A : Type} (cs : list (Call A)) (w w' : World) :
  run cs w = Some w' -> options (cb w') = options (cb w).
Proof.
  revert w. induction cs as [| c cs IH]; simpl; intros w Hr.
  - injection Hr as <-. reflexivity.
  - destruct (perform c w) as [w1 |] eqn:Hp; [| discriminate].
    rewrite (IH _ Hr). apply (emits_perform c). exact Hp.
Qed.

Lemma options_immutable_witness :
  exists w,
    run Scenario.script (boot (Some Scenario.opts) 0) = Some w /\
    LimitFailure (options (cb w)) = 2 /\ TimeoutState (options (cb w)) = 50 * Scenario.ms.
Proof.
  eexists. split; [reflexivity |].
  rewrite (options_immutable Scenario.script (boot (Some Scenario.opts) 0) _ eq_refl).
  split; reflexivity.
Defined.

(** X4: subscribers are never removed or reordered: after any run from a
    fresh breaker the registered readers are 0, 1, ..., n-1 in this order,
    where n is the number of [Subcriber] calls made. *)
Theorem subscribers_only_grow {A : Type} (cs : list (Call A))
    (given : option OptionsConfig) (unixnano : Z) (w : World) :
  run cs (boot given unixnano) = Some w ->
  events (cb w) = seq 0 (subscriptions cs).
Proof. intros Hr. rewrite (run_events cs _ _ Hr). reflexivity. Qed.

Lemma subscribers_only_grow_witness :
  exists w,
    run [CallSubcriber (A := unit); CallFailure; CallSubcriber; CallSetState 9;
         CallSubcriber] (boot None 0) = Some w /\
    events (cb w) = [0; 1; 2]%nat.
Proof.
  eexists. split; [reflexivity |].
  apply (subscribers_only_grow
           [CallSubcriber (A := unit); CallFailure; CallSubcriber; CallSetState 9;
            CallSubcriber] None 0).
  reflexivity.
Defined.

Lemma registry_invariant_perform {A : Type} (c : Call A) w w' :
  perform c w = Some w' -> registry_invariant w -> registry_invariant w'.
Proof.
  intros Hp [He Hs]. pose proof (perform_events _ _ _ Hp) as He'.
  destruct (emits_perform _ _ _ Hp) as [_ Hsent].
  assert (Hlen : (length (events (cb w)) <= length (events (cb w')))%nat).
  { rewrite He', length_app. lia. }
  split.
  - rewrite He' at 1. rewrite He at 1.
    rewrite He', length_app, !length_seq, <- seq_app. reflexivity.
  - assert (Hfan : forall event p, In p (fan_out event w) ->
                (fst p < length (events (cb w)))%nat).
    { intros event p Hin. unfold fan_out in Hin.
      apply List.in_map_iff in Hin as (reader & <- & Hr). simpl.
      rewrite He in Hr. apply List.in_seq in Hr. lia. }
    intros p Hin.
    destruct Hsent as [Hsn | [Hsn | Hsn]]; rewrite Hsn in Hin.
    + specialize (Hs p Hin). lia.
    + apply List.in_app_or in Hin as [Hin | Hin];
        [specialize (Hs p Hin) | specialize (Hfan _ p Hin)]; lia.
    + apply List.in_app_or in Hin as [Hin | Hin];
        [specialize (Hs p Hin) | specialize (Hfan _ p Hin)]; lia.
Qed.

Lemma registry_invariant_run {A : Type} (cs : list (Call A)) :
  forall w w', run cs w = Some w' -> registry_invariant w -> registry_invariant w'.
Proof.
  induction cs as [| c cs IH]; simpl; intros w w' Hr H.
  - injection Hr as <-. exact H.
  - destruct (perform c w) as [w1 |] eqn:Hp; [| discriminate].
    apply (IH w1 w' Hr). apply (registry_invariant_perform c w w1 Hp H).
Qed.

Lemma filter_none {B : Type} (f : B -> bool) (l : list B) :
  (forall x, In x l -> f x = false) -> List.filter f l = [].
Proof.
  induction l as [| x l IH]; intros H; [reflexivity |].
  simpl. rewrite (H x (or_introl eq_refl)).
  apply IH. intros y Hy. apply H. right. exact Hy.
Qed.

(** X5: events are sent to registered readers only, and nothing is
    replayed: after any run from a fresh breaker every send went to a
    reader that was registered, and the reader returned by the next
    [Subcriber] call has been sent nothing so far. *)
Theorem sends_reach_registered_only {A : Type} (cs : list (Call A))
    (given : option OptionsConfig) (unixnano : Z) (w : World) :
  run cs (boot given unixnano) = Some w ->
  (forall reader event, In (reader, event) (sent w) -> In reader (events (cb w))) /\
  history (snd (Subcriber w)) (fst (Subcriber w)) = [].
Proof.
  intros Hr.
  assert (H : registry_invariant w).
  { apply (registry_invariant_run cs _ _ Hr). split; [reflexivity |].
    intros p []. }
  destruct H as [He Hs]. split.
  - intros reader event Hin. rewrite He. apply List.in_seq.
    specialize (Hs _ Hin). simpl in Hs. lia.
  - unfold history, Subcriber. cbn [fst snd].
    replace (sent (set_events (fun e => e ++ [length (events (cb w))]) w))
      with (sent w) by (destruct w as [[o c e s n] ts sn nw iv]; reflexivity).
    assert (Hnone : List.filter (fun p => Nat.eqb (fst p) (length (events (cb w)))) (sent w) = []).
    { apply filter_none. intros p Hin. apply Nat.eqb_neq.
      specialize (Hs p Hin). unfold chan in *. lia. }
    rewrite Hnone. reflexivity.
Qed.

Lemma sends_reach_registered_only_witness :
  exists w,
    run (firstn 4 Scenario.script) (boot (Some Scenario.opts) 0) = Some w /\
    sent w = [(0%nat, mkEvent SERVICE_UNAVAILABLE "Service svc is unavailable")] /\
    In 0%nat (events (cb w)) /\
    history (snd (Subcriber w)) (fst (Subcriber w)) = [].
Proof.
  eexists. split; [reflexivity |]. split; [reflexivity |].
  destruct (sends_reach_registered_only (firstn 4 Scenario.script)
              (Some Scenario.opts) 0 _ eq_refl) as [H1 H2].
  split; [| exact H2].
  apply (H1 0%nat (mkEvent SERVICE_UNAVAILABLE "Service svc is unavailable")).
  left. reflexivity.
Defined.

(** ** Counting failures *)





(** X7: [SetState] does not touch the count of failures.  When the count
    has reached [limitFailure] (and is below the largest [uint32]), a
    breaker closed by [SetState(STATE_CLOSE)] is opened again by the
    first failure. *)
Theorem SetState_close_keeps_count (w : World) :
  0 <= consecFailures (cb w) ->
  LimitFailure (options (cb w)) <= consecFailures (cb w) < U32.max ->
  let w1 := SetState STATE_CLOSE w in
  GetState w1 = STATE_CLOSE /\
  consecFailures (cb w1) = consecFailures (cb w) /\
  GetState (Failure w1) = STATE_OPEN.
Proof.
  intros H0 Hc w1. subst w1.
  assert (Hadd : U32.add (consecFailures (cb w)) 1 = consecFailures (cb w) + 1).
  { apply U32Facts.add_small. unfold U32.max, U32.modulus in *. lia. }
  split; [| split].
  - destruct w as [[o c e s n] ts sn nw iv]. reflexivity.
  - destruct w as [[o c e s n] ts sn nw iv]. reflexivity.
  - rewrite Failure_closed_above.
    + destruct w as [[o c e s n] ts sn nw iv]. reflexivity.
    + destruct w as [[o c e s n] ts sn nw iv]. reflexivity.
    + destruct w as [[o c e s n] ts sn nw iv]. simpl in *. lia.
Qed.

Lemma SetState_close_keeps_count_witness :
  let w := failures 3 (boot (Some (mkOptions 0 0 2 0 "svc")) 0) in
  GetState w = STATE_OPEN /\ consecFailures (cb w) = 3 /\
  GetState (SetState STATE_CLOSE w) = STATE_CLOSE /\
  GetState (Failure (SetState STATE_CLOSE w)) = STATE_OPEN.
Proof.
  intros w.
  assert (H0 : 0 <= consecFailures (cb w)) by discriminate.
  assert (Hc : LimitFailure (options (cb w)) <= consecFailures (cb w) < U32.max)
    by (split; [discriminate | reflexivity]).
  destruct (SetState_close_keeps_count w H0 Hc) as (H1 & _ & H3).
  split; [reflexivity |]. split; [reflexivity |]. split; [exact H1 | exact H3].
Defined.

(** ** Leaving Open *)

(** What a step that keeps the breaker Open leaves untouched. *)
Lemma perform_while_open {A : Type} (c : Call A) w w' :
  is_SetState c = false -> is_TimerFires c = false ->
  GetState w = STATE_OPEN -> perform c w = Some w' ->
  GetState w' = STATE_OPEN /\ timers w' = timers w /\ sent w' = sent w /\
  invoked w' = invoked w /\ consecFailures (cb w') = consecFailures (cb w) /\
  now w <= now w'.
Proof.
  intros Hc1 Hc2 Ho Hp.
  destruct c; simpl in Hp; try discriminate Hc1; try discriminate Hc2.
  - rewrite (Execute_open _ _ _ _ Ho) in Hp. injection Hp as <-.
    destruct w as [[o c e s n] ts sn nw iv]. simpl in *. repeat split; auto; lia.
  - injection Hp as <-.
    rewrite Success_not_half_open by (rewrite Ho; discriminate).
    destruct w as [[o c e s n] ts sn nw iv]. simpl in *. repeat split; auto; lia.
  - injection Hp as <-. rewrite (Failure_open _ Ho).
    destruct w as [[o c e s n] ts sn nw iv]. simpl in *. repeat split; auto; lia.
  - injection Hp as <-.
    destruct w as [[o c e s n] ts sn nw iv]. simpl in *. repeat split; auto; lia.
  - injection Hp as <-.
    destruct w as [[o c e s n] ts sn nw iv]. simpl in *. repeat split; auto; lia.
  - injection Hp as <-.
    destruct w as [[o c e s n] ts sn nw iv]. simpl in *. repeat split; auto; lia.
Qed.

(** X8: Open is left only through the timer (or [SetState]).  In a run
    from Open in which no timer fires and [SetState] is not called, the
    state stays Open, no wrapped operation is ever invoked, no event is
    sent and no further timer is started, whatever is called and however
    much time passes. *)
Theorem open_left_only_by_timer {A : Type} (cs : list (Call A)) (w w' : World) :
  forallb (fun c => negb (is_SetState c) && negb (is_TimerFires c)) cs = true ->
  GetState w = STATE_OPEN ->
  run cs w = Some w' ->
  GetState w' = STATE_OPEN /\ invoked w' = invoked w /\ sent w' = sent w /\
  timers w' = timers w /\ consecFailures (cb w') = consecFailures (cb w).
Proof.
  revert w. induction cs as [| c cs IH]; simpl; intros w Hcs Ho Hr.
  - injection Hr as <-. auto.
  - apply andb_prop in Hcs as [Hc Hcs]. apply andb_prop in Hc as [Hc1 Hc2].
    destruct (perform c w) as [w1 |] eqn:Hp; [| discriminate].
    destruct (perform_while_open c w w1) as (Ho1 & Ht1 & Hs1 & Hi1 & Hc1' & _);
      try assumption;
      try (destruct (is_SetState c); [discriminate | reflexivity]);
      try (destruct (is_TimerFires c); [discriminate | reflexivity]).
    destruct (IH w1 Hcs Ho1 Hr) as (H1 & H2 & H3 & H4 & H5).
    rewrite H2, H3, H4, H5. auto.
Qed.

Lemma open_left_only_by_timer_witness :
  let w := failures 3 (boot (Some Scenario.opts) 0) in
  exists w',
    run [CallExecute Scenario.working 0 false; TimePasses (900 * Scenario.ms);
         CallExecute Scenario.working 0 false; CallSuccess] w = Some w' /\
    GetState w' = STATE_OPEN /\ invoked w' = invoked w.
Proof.
  intros w. eexists. split; [reflexivity |].
  destruct (open_left_only_by_timer
              [CallExecute Scenario.working 0 false; TimePasses (900 * Scenario.ms);
               CallExecute Scenario.working 0 false; CallSuccess] w _
              eq_refl eq_refl eq_refl) as (H1 & H2 & _).
  split; [exact H1 | exact H2].
Defined.

Lemma perform_now_mono {A : Type} (c : Call A) w w' :
  perform c w = Some w' -> now w <= now w'.
Proof.
  destruct c; simpl; intros Hp.
  - destruct (Z.eq_dec (GetState w) STATE_OPEN) as [Ho | Ho].
    + rewrite (Execute_open _ _ _ _ Ho) in Hp. injection Hp as <-.
      destruct w as [[o c e s n] ts sn nw iv]. simpl. lia.
    + rewrite (Execute_admitted _ _ _ _ Ho) in Hp. cbv zeta in Hp.
      assert (HF : forall d, now w <= now (Failure (tick d (set_invoked N.succ
                (set_counter add_TotalRequests w))))).
      { intros d. destruct (Failure_frame (tick d (set_invoked N.succ
          (set_counter add_TotalRequests w)))) as (_ & _ & _ & _ & -> & _).
        destruct w as [[o c e s n] ts sn nw iv]. simpl. lia. }
      assert (HS : forall d, now w <= now (Success (tick d (set_invoked N.succ
                (set_counter add_TotalRequests w))))).
      { intros d. destruct (Success_frame (tick d (set_invoked N.succ
          (set_counter add_TotalRequests w)))) as (_ & _ & _ & _ & _ & -> & _).
        destruct w as [[o c e s n] ts sn nw iv]. simpl. lia. }
      destruct (timeout =? 0).
      * destruct (latency handle) as [d |]; [| discriminate].
        destruct (Error (returns handle)); injection Hp as <-; [apply HF | apply HS].
      * destruct (select_case (latency handle) timeout pick) as [d | d].
        -- destruct (Error (returns handle)); injection Hp as <-; [apply HF | apply HS].
        -- cbn [Error] in Hp. injection Hp as <-. apply HF.
  - injection Hp as <-. destruct (Success_frame w) as (_ & _ & _ & _ & _ & -> & _). lia.
  - injection Hp as <-. destruct (Failure_frame w) as (_ & _ & _ & _ & -> & _). lia.
  - injection Hp as <-. destruct w as [[o c e s n] ts sn nw iv]. simpl. lia.
  - injection Hp as <-. destruct w as [[o c e s n] ts sn nw iv]. simpl. lia.
  - injection Hp as <-. destruct w as [[o c e s n] ts sn nw iv]. simpl. lia.
  - unfold fire in Hp. destruct (timers w !! i); [| discriminate].
    destruct (_ <=? _); [| discriminate]. injection Hp as <-.
    open_world w. case_ifs; simpl; lia.
  - injection Hp as <-. destruct w as [[o c e s n] ts sn nw iv]. simpl. lia.
Qed.

Lemma run_now_mono {A : Type} (cs : list (Call A)) :
  forall w w', run cs w = Some w' -> now w <= now w'.
Proof.
  induction cs as [| c cs IH]; simpl; intros w w' Hr.
  - injection Hr as <-. lia.
  - destruct (perform c w) as [w1 |] eqn:Hp; [| discriminate].
    pose proof (perform_now_mono _ _ _ Hp). pose proof (IH _ _ Hr). lia.
Qed.

(** X9: the breaker stays Open until its timer is due.  From Open with
    one pending transition due at [deadline], whatever is called short of
    [SetState], including attempts of the timer to fire, as long as the
    clock at the end is before [deadline] the state is still Open, the
    transition is still pending and no wrapped operation has been
    invoked. *)
Theorem open_until_deadline {A : Type} (cs : list (Call A)) (w w' : World)
    (deadline : Z) :
  forallb (fun c => negb (is_SetState c)) cs = true ->
  GetState w = STATE_OPEN -> timers w = [deadline] ->
  run cs w = Some w' -> now w' < deadline ->
  GetState w' = STATE_OPEN /\ timers w' = [deadline] /\ invoked w' = invoked w.
Proof.
  revert w. induction cs as [| c cs IH]; simpl; intros w Hcs Ho Ht Hr Hn.
  - injection Hr as <-. auto.
  - apply andb_prop in Hcs as [Hc Hcs].
    destruct (perform c w) as [w1 |] eqn:Hp; [| discriminate].
    pose proof (run_now_mono _ _ _ Hr) as Hm1.
    pose proof (perform_now_mono _ _ _ Hp) as Hm0.
    destruct (is_TimerFires c) eqn:Hf.
    + destruct c; try discriminate Hf. simpl in Hp. unfold fire in Hp.
      rewrite Ht in Hp. destruct i as [| i]; simpl in Hp; [| discriminate].
      destruct (Z.leb_spec deadline (now w)); [lia | discriminate].
    + destruct (perform_while_open c w w1) as (Ho1 & Ht1 & _ & Hi1 & _);
        try assumption; try (destruct (is_SetState c); [discriminate | reflexivity]).
      destruct (IH w1 Hcs Ho1) as (H1 & H2 & H3); try assumption; try congruence.
      rewrite H3, Hi1. auto.
Qed.

Lemma open_until_deadline_witness :
  let w := failures 3 (boot (Some Scenario.opts) 0) in
  timers w = [50 * Scenario.ms] /\
  exists w',
    run [CallExecute Scenario.working 0 false; TimePasses (40 * Scenario.ms);
         CallExecute Scenario.working 0 false] w = Some w' /\
    now w' < 50 * Scenario.ms /\ GetState w' = STATE_OPEN.
Proof.
  intros w. split; [reflexivity |]. eexists. split; [reflexivity |].
  split; [reflexivity |].
  apply (open_until_deadline
           [CallExecute Scenario.working 0 false; TimePasses (40 * Scenario.ms);
            CallExecute Scenario.working 0 false] w _ (50 * Scenario.ms)
           eq_refl eq_refl eq_refl eq_refl eq_refl).
Defined.

(** ** A whole episode *)

(** X10: one whole episode brings the breaker back to where it started.
    From Closed with count 0 and nothing pending, [limitFailure]
    failures, one more call of [Failure] that no timer goroutine
    overtakes, the wait until its timer is due, the timer goroutine run
    to its end and then one success lead to Closed with count 0 and
    nothing pending again; on the way every registered reader was sent
    exactly one Unavailable and then one Available event. *)
Theorem episode_round_trip (w : World) (sched : list Move) (m : Machine) :
  GetState w = STATE_CLOSE -> consecFailures (cb w) = 0 ->
  U32.in_range (LimitFailure (options (cb w))) ->
  LimitFailure (options (cb w)) < U32.max ->
  timers w = [] ->
  forallb (fun mv => negb (is_MoveWake mv)) sched = true ->
  play sched
       (mkMachine (failures (Z.to_N (LimitFailure (options (cb w)))) w) Failure_proc [])
    = Some m ->
  caller m = Done ->
  exists deadline probing,
    timers (world m) = [deadline] /\
    fire 0 (tick (deadline - now (world m)) (world m)) = Some probing /\
    probing = alone timer_proc
                (set_timers (delete 0%nat) (tick (deadline - now (world m)) (world m))) /\
    GetState probing = STATE_HALF_OPEN /\
    GetState (Success probing) = STATE_CLOSE /\
    consecFailures (cb (Success probing)) = 0 /\
    timers (Success probing) = [] /\
    sent (Success probing) =
      sent w ++ fan_out (unavailable w) w ++ fan_out (available w) w.
Proof.
  intros Hs Hc HL Hmax Ht Hnw Hpl Hd.
  destruct (tripping_call_not_overtaken w sched m Hs Hc HL Hmax Hnw Hpl Hd)
    as (Hb & Hsent & started & Hst & Htm).
  destruct (failures_trip w Hs Hc HL Hmax) as (Ho & Hop & He & _).
  cbv zeta in Ho, Hop, He. unfold GetState in Ho.
  rewrite <- Hb in Ho, Hop, He. rewrite Ht in Htm. simpl in Htm.
  exists (started + TimeoutState (options (cb w))).
  rewrite alone_timer.
  destruct (world m) as [[o c e s cf] ts sn nw iv].
  destruct w as [[o0 c0 e0 s0 cf0] ts0 sn0 nw0 iv0].
  unfold GetState, fan_out, unavailable, available in *. simpl in *. subst.
  unfold fire. simpl.
  destruct (Z.leb_spec (started + TimeoutState o0)
              (nw + Z.max 0 (started + TimeoutState o0 - nw))); [| lia].
  eexists. split; [reflexivity |]. split; [reflexivity |].
  unfold_methods. simpl. rewrite <- app_assoc. repeat split.
Qed.

Lemma episode_round_trip_witness :
  let w := fst (Subcriber (boot (Some Scenario.opts) 0)) in
  let sched := [MoveCaller; MoveCaller; MoveCaller; MoveCaller; MoveCaller;
                MoveCaller; MoveTick Scenario.ms; MoveCaller; MoveCaller; MoveCaller] in
  exists m probing,
    play sched (mkMachine (failures 2 w) Failure_proc []) = Some m /\
    timers (world m) = [50 * Scenario.ms] /\
    fire 0 (tick (50 * Scenario.ms - now (world m)) (world m)) = Some probing /\
    GetState (Success probing) = STATE_CLOSE /\
    sent (Success probing) =
      [(0%nat, mkEvent SERVICE_UNAVAILABLE "Service svc is unavailable");
       (0%nat, mkEvent SERVICE_AVAILABLE "Service svc is available")].
Proof.
  intros w sched.
  assert (HL : U32.in_range (LimitFailure (options (cb w)))) by (split; discriminate || reflexivity).
  destruct (play sched (mkMachine (failures 2 w) Failure_proc [])) as [m |] eqn:Hplay;
    [| vm_compute in Hplay; discriminate Hplay].
  assert (Hm : caller m = Done /\ timers (world m) = [50 * Scenario.ms]).
  { vm_compute in Hplay. injection Hplay as <-. split; reflexivity. }
  destruct Hm as [Hm Ht].
  destruct (episode_round_trip w sched m eq_refl eq_refl HL eq_refl eq_refl eq_refl
              Hplay Hm) as (deadline & probing & Htm & Hf & _ & _ & Hs & _ & _ & Hsn).
  rewrite Ht in Htm. injection Htm as <-.
  exists m, probing. split; [reflexivity |]. split; [exact Ht |].
  split; [exact Hf |]. split; [exact Hs | exact Hsn].
Defined.

(** ** Probes through [Execute] *)

(** X11: in HalfOpen a call is admitted as a probe and its outcome
    decides the next state.  If [Execute] returns an error (the
    operation's own or the timeout) the breaker is Open again and a timer
    is started at the instant the call returns; if it returns no error
    the breaker is Closed with count 0.  In both cases the operation was
    invoked once. *)
Theorem half_open_probe_through_Execute {A : Type} (handle : HandleFunc A)
    (timeout : Duration) (pick : bool) (w w' : World) (r : ResponseCommand A) :
  GetState w = STATE_HALF_OPEN ->
  Execute handle timeout pick w = (w', Some r) ->
  invoked w' = N.succ (invoked w) /\
  (Error r <> None ->
     GetState w' = STATE_OPEN /\
     timers w' = timers w ++ [now w' + TimeoutState (options (cb w))]) /\
  (Error r = None ->
     GetState w' = STATE_CLOSE /\ consecFailures (cb w') = 0 /\ timers w' = timers w).
Proof.
  intros Hh HE.
  assert (Ho : GetState w <> STATE_OPEN) by (rewrite Hh; discriminate).
  rewrite (Execute_admitted _ _ _ _ Ho) in HE. cbv zeta in HE.
  assert (HF : forall d (r0 : ResponseCommand A) w0,
            (Failure (tick d (set_invoked N.succ (set_counter add_TotalRequests w))),
             Some r0) = (w0, Some r) ->
            invoked w0 = N.succ (invoked w) /\
            GetState w0 = STATE_OPEN /\
            timers w0 = timers w ++ [now w0 + TimeoutState (options (cb w))]).
  { intros d r0 w0 H. injection H as <- _. rewrite Failure_half_open.
    - destruct w as [[o c e s n] ts sn nw iv]. repeat split.
    - destruct w as [[o c e s n] ts sn nw iv]. exact Hh. }
  assert (HS : forall d (r0 : ResponseCommand A) w0,
            (Success (tick d (set_invoked N.succ (set_counter add_TotalRequests w))),
             Some r0) = (w0, Some r) ->
            invoked w0 = N.succ (invoked w) /\
            GetState w0 = STATE_CLOSE /\ consecFailures (cb w0) = 0 /\
            timers w0 = timers w).
  { intros d r0 w0 H. injection H as <- _.
    destruct w as [[o c e s n] ts sn nw iv]. unfold GetState in Hh. simpl in Hh.
    subst s. repeat split. }
  assert (Hcase : forall d (r0 : ResponseCommand A),
            match Error r0 with
            | Some _ => (Failure (tick d (set_invoked N.succ
                           (set_counter add_TotalRequests w))), Some r0)
            | None => (Success (tick d (set_invoked N.succ
                         (set_counter add_TotalRequests w))), Some r0)
            end = (w', Some r) ->
            invoked w' = N.succ (invoked w) /\
            (Error r <> None ->
               GetState w' = STATE_OPEN /\
               timers w' = timers w ++ [now w' + TimeoutState (options (cb w))]) /\
            (Error r = None ->
               GetState w' = STATE_CLOSE /\ consecFailures (cb w') = 0 /\
               timers w' = timers w)).
  { intros d r0 H. destruct (Error r0) eqn:Her.
    - assert (r0 = r) by (injection H; auto). subst r0.
      destruct (HF _ _ _ H) as (H1 & H2 & H3).
      split; [exact H1 |]. split; [auto |]. intros Hn. congruence.
    - assert (r0 = r) by (injection H; auto). subst r0.
      destruct (HS _ _ _ H) as (H1 & H2 & H3 & H4).
      split; [exact H1 |]. split; [intros Hn; congruence | auto]. }
  destruct (timeout =? 0).
  - destruct (latency handle) as [d |]; [| discriminate]. apply (Hcase d _ HE).
  - destruct (select_case (latency handle) timeout pick) as [d | d].
    + apply (Hcase d _ HE).
    + apply (Hcase d (mkResponse None (Some ErrorTimeoutExecute)) HE).
Qed.

Lemma half_open_probe_through_Execute_witness :
  let w := SetState STATE_HALF_OPEN (boot (Some Scenario.opts) 0) in
  GetState (fst (Execute Scenario.failing 0 false w)) = STATE_OPEN /\
  timers (fst (Execute Scenario.failing 0 false w)) = [51 * Scenario.ms] /\
  GetState (fst (Execute Scenario.working 0 false w)) = STATE_CLOSE.
Proof.
  intros w.
  destruct (half_open_probe_through_Execute Scenario.failing 0 false w _ _
              eq_refl eq_refl) as (_ & HF & _).
  destruct (HF ltac:(discriminate)) as [H1 H2].
  destruct (half_open_probe_through_Execute Scenario.working 0 false w _ _
              eq_refl eq_refl) as (_ & _ & HS).
  destruct (HS eq_refl) as [H3 _].
  split; [exact H1 |]. split; [exact H2 | exact H3].
Defined.

(** ** Edge cases: unknown states and negative timeouts *)

Lemma Failure_unknown w :
  GetState w <> STATE_CLOSE -> GetState w <> STATE_HALF_OPEN ->
  Failure w = set_counter add_TotalFailures w.
Proof.
  intros H1 H2. open_world w.
  destruct (Z.eqb_spec s STATE_CLOSE); [contradiction |]. simpl.
  destruct (Z.eqb_spec s STATE_HALF_OPEN); [contradiction | reflexivity].
Qed.

Lemma perform_unknown_state {A : Type} (c : Call A) w w' :
  is_SetState c = false ->
  GetState w <> STATE_CLOSE -> GetState w <> STATE_HALF_OPEN ->
  GetState w <> STATE_OPEN ->
  perform c w = Some w' ->
  GetState w' = GetState w /\ sent w' = sent w /\
  Z.of_N (invoked w') = Z.of_N (invoked w) + (if is_Execute c then 1 else 0).
Proof.
  intros Hc H1 H2 H3 Hp.
  assert (Hadm : forall d,
            let w1 := tick d (set_invoked N.succ (set_counter add_TotalRequests w)) in
            GetState w1 = GetState w /\ sent w1 = sent w /\
            Z.of_N (invoked w1) = Z.of_N (invoked w) + 1).
  { intros d. destruct w as [[o c0 e s n] ts sn nw iv]. simpl. repeat split. lia. }
  assert (HF : forall d,
            let w2 := Failure (tick d (set_invoked N.succ
                        (set_counter add_TotalRequests w))) in
            GetState w2 = GetState w /\ sent w2 = sent w /\
            Z.of_N (invoked w2) = Z.of_N (invoked w) + 1).
  { intros d. destruct (Hadm d) as (Hs & Hsn & Hi). cbv zeta in *.
    rewrite Failure_unknown by (rewrite Hs; assumption).
    rewrite <- Hs, <- Hsn, <- Hi.
    destruct (tick d _) as [[o c0 e s n] ts sn nw iv]. repeat split. }
  assert (HS : forall d,
            let w2 := Success (tick d (set_invoked N.succ
                        (set_counter add_TotalRequests w))) in
            GetState w2 = GetState w /\ sent w2 = sent w /\
            Z.of_N (invoked w2) = Z.of_N (invoked w) + 1).
  { intros d. destruct (Hadm d) as (Hs & Hsn & Hi). cbv zeta in *.
    rewrite Success_not_half_open by (rewrite Hs; assumption).
    rewrite <- Hs, <- Hsn, <- Hi.
    destruct (tick d _) as [[o c0 e s n] ts sn nw iv]. repeat split. }
  destruct c; simpl in Hp; try discriminate Hc; simpl.
  - rewrite (Execute_admitted _ _ _ _ H3) in Hp. cbv zeta in Hp.
    destruct (timeout =? 0).
    + destruct (latency handle) as [d |]; [| discriminate].
      destruct (Error (returns handle)); injection Hp as <-; [apply HF | apply HS].
    + destruct (select_case (latency handle) timeout pick) as [d | d].
      * destruct (Error (returns handle)); injection Hp as <-; [apply HF | apply HS].
      * cbn [Error] in Hp. injection Hp as <-. apply HF.
  - injection Hp as <-. rewrite Success_not_half_open by assumption.
    destruct w as [[o c0 e s n] ts sn nw iv]. simpl. repeat split. lia.
  - injection Hp as <-. rewrite Failure_unknown by assumption.
    destruct w as [[o c0 e s n] ts sn nw iv]. simpl. repeat split. lia.
  - injection Hp as <-.
    destruct w as [[o c0 e s n] ts sn nw iv]. simpl. repeat split. lia.
  - injection Hp as <-.
    destruct w as [[o c0 e s n] ts sn nw iv]. simpl. repeat split. lia.
  - unfold fire in Hp. destruct (timers w !! i); [| discriminate].
    destruct (_ <=? _); [| discriminate]. injection Hp as <-.
    open_world w. destruct (Z.eqb_spec s STATE_OPEN); [contradiction |].
    simpl. repeat split. lia.
  - injection Hp as <-.
    destruct w as [[o c0 e s n] ts sn nw iv]. simpl. repeat split. lia.
Qed.

(** X12: a state outside Closed, HalfOpen and Open, which only
    [SetState] can install, is never left again without [SetState]: in
    every such run the state stays what it is, no event is sent, and
    every [Execute] call is admitted, the wrapped operation being invoked
    each time. *)
Theorem unknown_state_is_never_left {A : Type} (cs : list (Call A)) (w w' : World) :
  forallb (fun c => negb (is_SetState c)) cs = true ->
  GetState w <> STATE_CLOSE -> GetState w <> STATE_HALF_OPEN ->
  GetState w <> STATE_OPEN ->
  run cs w = Some w' ->
  GetState w' = GetState w /\ sent w' = sent w /\
  Z.of_N (invoked w') = Z.of_N (invoked w) + executes cs.
Proof.
  revert w. induction cs as [| c cs IH]; simpl; intros w Hcs H1 H2 H3 Hr.
  - injection Hr as <-. repeat split. lia.
  - apply andb_prop in Hcs as [Hc Hcs].
    destruct (perform c w) as [w1 |] eqn:Hp; [| discriminate].
    destruct (perform_unknown_state c w w1) as (Hs1 & Hsn1 & Hi1); try assumption.
    { destruct (is_SetState c); [discriminate | reflexivity]. }
    destruct (IH w1 Hcs) as (Hs & Hsn & Hi); try (rewrite Hs1; assumption);
      try assumption.
    rewrite Hs, Hsn, Hi, Hs1, Hsn1, Hi1. repeat split. lia.
Qed.

Lemma unknown_state_is_never_left_witness :
  let w := SetState 7 (boot (Some Scenario.opts) 0) in
  exists w',
    run [CallExecute Scenario.failing 0 false; CallExecute Scenario.failing 0 false;
         CallExecute Scenario.failing 0 false; CallExecute Scenario.failing 0 false] w
      = Some w' /\
    GetState w' = 7 /\ sent w' = [] /\ invoked w' = 4%N.
Proof.
  intros w. eexists. split; [reflexivity |].
  edestruct (unknown_state_is_never_left
              [CallExecute Scenario.failing 0 false; CallExecute Scenario.failing 0 false;
               CallExecute Scenario.failing 0 false; CallExecute Scenario.failing 0 false]
              w) as (H1 & H2 & _);
    [reflexivity | discriminate | discriminate | discriminate | reflexivity |].
  split; [exact H1 |]. split; [exact H2 | reflexivity].
Defined.

(** X13: only a timeout of exactly 0 means that the call is not bounded.
    With a negative timeout an admitted call of an operation that takes
    any time at all (or never returns) comes back at once with the
    TimeoutExecute error, and is recorded as a failure. *)
Theorem negative_timeout_expires_at_once {A : Type} (handle : HandleFunc A)
    (timeout : Duration) (pick : bool) (w : World) :
  timeout < 0 -> GetState w <> STATE_OPEN ->
  (forall d, latency handle = Some d -> 0 < d) ->
  snd (Execute handle timeout pick w) =
    Some (mkResponse None (Some ErrorTimeoutExecute)) /\
  now (fst (Execute handle timeout pick w)) = now w /\
  TotalFailures (counter (cb (fst (Execute handle timeout pick w)))) =
    U32.add (TotalFailures (counter (cb w))) 1.
Proof.
  intros Ht Ho Hl.
  assert (Hsel : select_case (latency handle) timeout pick = CaseTimer 0).
  { unfold select_case. rewrite Z.max_l by lia.
    destruct (latency handle) as [d |]; [| reflexivity].
    specialize (Hl d eq_refl).
    destruct (Z.ltb_spec d 0); [lia |].
    destruct (Z.ltb_spec 0 d); [reflexivity | lia]. }
  rewrite (Execute_admitted _ _ _ _ Ho). cbv zeta.
  destruct (Z.eqb_spec timeout 0); [lia |].
  rewrite Hsel. cbn [fst snd Error].
  destruct (Failure_frame (tick 0 (set_invoked N.succ
    (set_counter add_TotalRequests w)))) as (_ & _ & Hc & _ & Hn & _).
  rewrite Hc, Hn. destruct w as [[o c e s n0] ts sn nw iv]. simpl.
  repeat split. lia.
Qed.

Lemma negative_timeout_expires_at_once_witness :
  let w := boot None 0 in
  snd (Execute Scenario.working (-1) false w) =
    Some (mkResponse None (Some ErrorTimeoutExecute)) /\
  TotalFailures (counter (cb (fst (Execute Scenario.working (-1) false w)))) = 1.
Proof.
  intros w.
  assert (Hl : forall d, latency Scenario.working = Some d -> 0 < d).
  { intros d Hd. injection Hd as <-. reflexivity. }
  destruct (negative_timeout_expires_at_once Scenario.working (-1) false w
              eq_refl ltac:(discriminate) Hl) as (H1 & _ & H3).
  split; [exact H1 | rewrite H3; reflexivity].
Defined.

(** ** How many failing calls get through *)

Lemma failure_budget_ext w w' :
  options (cb w') = options (cb w) ->
  TotalFailures (counter (cb w')) = TotalFailures (counter (cb w)) ->
  consecFailures (cb w') = consecFailures (cb w) -> GetState w' = GetState w ->
  failure_budget w -> failure_budget w'.
Proof. unfold failure_budget. intros -> -> -> ->. exact id. Qed.

Lemma failure_budget_Failure w :
  LimitFailure (options (cb w)) < U32.max ->
  GetState w = STATE_CLOSE -> failure_budget w -> failure_budget (Failure w).
Proof.
  intros Hmax Hs [Hc [[_ HF] | [Ho _]]]; [| rewrite Hs in Ho; discriminate].
  assert (Hadd : U32.add (TotalFailures (counter (cb w))) 1 =
                 TotalFailures (counter (cb w)) + 1).
  { apply U32Facts.add_small. unfold U32.max, U32.modulus in *. lia. }
  destruct (Z_lt_le_dec (LimitFailure (options (cb w)))
              (U32.add (consecFailures (cb w)) 1)) as [Hgt | Hle].
  - rewrite (Failure_closed_above _ Hs Hgt). rewrite Hc, Hadd in Hgt.
    destruct w as [[o c e s n] ts sn nw iv]. unfold failure_budget, GetState in *.
    simpl in *. subst n. rewrite Hadd. split; [reflexivity |]. right.
    split; [reflexivity | lia].
  - rewrite (Failure_closed_below _ Hs Hle). rewrite Hc, Hadd in Hle.
    destruct w as [[o c e s n] ts sn nw iv]. unfold failure_budget, GetState in *.
    simpl in *. subst n. rewrite Hadd. split; [reflexivity |]. left.
    split; [assumption | lia].
Qed.

Lemma failure_budget_Success w :
  GetState w = STATE_CLOSE -> failure_budget w -> failure_budget (Success w).
Proof.
  intros Hs. rewrite Success_not_half_open by (rewrite Hs; discriminate).
  apply failure_budget_ext; destruct w as [[o c e s n] ts sn nw iv]; reflexivity.
Qed.

Lemma failure_budget_Execute {A : Type} (handle : HandleFunc A) timeout pick w :
  LimitFailure (options (cb w)) < U32.max ->
  failure_budget w -> failure_budget (fst (Execute handle timeout pick w)).
Proof.
  intros Hmax Hb.
  destruct (Z.eq_dec (GetState w) STATE_OPEN) as [Ho | Ho].
  - rewrite (Execute_open _ _ _ _ Ho). revert Hb.
    apply failure_budget_ext; destruct w as [[o c e s n] ts sn nw iv]; reflexivity.
  - assert (Hs : GetState w = STATE_CLOSE).
    { destruct Hb as [_ [[Hs _] | [Hs _]]]; [exact Hs | contradiction]. }
    assert (Hadm : forall d,
              let w1 := tick d (set_invoked N.succ (set_counter add_TotalRequests w)) in
              failure_budget w1 /\ GetState w1 = STATE_CLOSE /\
              LimitFailure (options (cb w1)) < U32.max).
    { intros d. cbv zeta. split; [| split].
      - revert Hb. apply failure_budget_ext;
          destruct w as [[o c e s n] ts sn nw iv]; reflexivity.
      - destruct w as [[o c e s n] ts sn nw iv]. exact Hs.
      - destruct w as [[o c e s n] ts sn nw iv]. exact Hmax. }
    rewrite (Execute_admitted _ _ _ _ Ho). cbv zeta.
    destruct (timeout =? 0).
    + destruct (latency handle) as [d |].
      * destruct (Hadm d) as (H1 & H2 & H3).
        destruct (Error (returns handle)); cbn [fst];
          [apply failure_budget_Failure | apply failure_budget_Success]; assumption.
      * cbn [fst]. revert Hb. apply failure_budget_ext;
          destruct w as [[o c e s n] ts sn nw iv]; reflexivity.
    + destruct (select_case (latency handle) timeout pick) as [d | d];
        destruct (Hadm d) as (H1 & H2 & H3).
      * destruct (Error (returns handle)); cbn [fst];
          [apply failure_budget_Failure | apply failure_budget_Success]; assumption.
      * cbn [fst Error]. apply failure_budget_Failure; assumption.
Qed.

Lemma failure_budget_run {A : Type} (cs : list (Call A)) :
  forallb is_Execute_or_idle cs = true ->
  forall w w', run cs w = Some w' ->
    LimitFailure (options (cb w)) < U32.max ->
    failure_budget w -> failure_budget w'.
Proof.
  induction cs as [| c cs IH]; simpl; intros Hcs w w' Hr Hmax Hb.
  - injection Hr as <-. exact Hb.
  - apply andb_prop in Hcs as [Hc Hcs].
    destruct (perform c w) as [w1 |] eqn:Hp; [| discriminate].
    assert (Ho : options (cb w1) = options (cb w)).
    { apply (emits_perform c). exact Hp. }
    apply (IH Hcs w1 w' Hr); [rewrite Ho; exact Hmax |].
    destruct c; try discriminate Hc; simpl in Hp.
    + pose proof (failure_budget_Execute handle timeout pick w Hmax Hb) as HE.
      destruct (Execute handle timeout pick w) as [w2 [r |]]; [| discriminate].
      injection Hp as <-. exact HE.
    + injection Hp as <-. revert Hb. apply failure_budget_ext;
        destruct w as [[o c e s n] ts sn nw iv]; reflexivity.
    + injection Hp as <-. revert Hb. apply failure_budget_ext;
        destruct w as [[o c e s n] ts sn nw iv]; reflexivity.
Qed.

Lemma run_options {A : Type} (cs : list (Call A)) :
  forall w w', run cs w = Some w' -> options (cb w') = options (cb w).
Proof.
  induction cs as [| c cs IH]; simpl; intros w w' Hr.
  - injection Hr as <-. reflexivity.
  - destruct (perform c w) as [w1 |] eqn:Hp; [| discriminate].
    rewrite (IH _ _ Hr). apply (emits_perform c). exact Hp.
Qed.

(** X15: at most [limitFailure]+1 failing calls get through.  When a
    fresh breaker whose [limitFailure] is below the largest [uint32] is
    driven through [Execute] alone (subscriptions and waiting in between)
    and no timer has fired yet, the failure counter never exceeds
    [limitFailure]+1; it equals the count of consecutive failures; and
    the breaker is Open exactly when it has reached [limitFailure]+1,
    and is Closed otherwise. *)
Theorem at_most_limit_plus_one_failures {A : Type} (cs : list (Call A))
    (given : option OptionsConfig) (unixnano : Z) (w : World) :
  forallb is_Execute_or_idle cs = true ->
  0 <= LimitFailure (options (NewBreaker given unixnano)) < U32.max ->
  run cs (boot given unixnano) = Some w ->
  let L := LimitFailure (options (cb w)) in
  let F := TotalFailures (counter (cb w)) in
  0 <= F <= L + 1 /\ consecFailures (cb w) = F /\
  (GetState w = STATE_OPEN <-> F = L + 1) /\
  (GetState w = STATE_CLOSE <-> F <= L).
Proof.
  intros Hcs HL Hr L F.
  assert (Hb : failure_budget w).
  { apply (failure_budget_run cs Hcs _ _ Hr); [apply HL |].
    split; [reflexivity |]. left. split; [reflexivity |].
    change (0 <= 0 <= LimitFailure (options (NewBreaker given unixnano))). lia. }
  destruct Hb as [Hc [[Hs HF] | [Hs HF]]]; fold L F in Hc, HF |- *.
  - split; [lia |]. split; [exact Hc |]. rewrite Hs. split; split; intros H;
      try discriminate; try reflexivity; lia.
  - assert (HL' : 0 <= L).
    { subst L. rewrite (run_options cs _ _ Hr). apply HL. }
    split; [lia |]. split; [exact Hc |]. rewrite Hs. split; split; intros H;
      try discriminate; try reflexivity; lia.
Qed.

Lemma at_most_limit_plus_one_failures_witness :
  exists w,
    run [CallExecute Scenario.failing 0 false; CallExecute Scenario.working 0 false;
         CallExecute Scenario.failing 0 false; CallExecute Scenario.failing 0 false;
         CallExecute Scenario.failing 0 false; CallExecute Scenario.failing 0 false]
        (boot (Some Scenario.opts) 0) = Some w /\
    TotalFailures (counter (cb w)) = 3 /\ TotalRejects (counter (cb w)) = 2 /\
    GetState w = STATE_OPEN.
Proof.
  eexists. split; [reflexivity |]. split; [reflexivity |]. split; [reflexivity |].
  edestruct (at_most_limit_plus_one_failures
               [CallExecute Scenario.failing 0 false; CallExecute Scenario.working 0 false;
                CallExecute Scenario.failing 0 false; CallExecute Scenario.failing 0 false;
                CallExecute Scenario.failing 0 false; CallExecute Scenario.failing 0 false]
               (Some Scenario.opts) 0) as (_ & _ & Ho & _);
    [reflexivity | split; [discriminate | reflexivity] | reflexivity |].
  apply Ho. reflexivity.
Defined.
